(** * Cubic-spline distance field of package sdf (sdf/spline.go)

    A shallow embedding of [TriDiagonal], [CubicPolynomial], [CubicSpline]
    and [CubicSplineSDF2], and the properties of the specification that
    concern them.

    The Go code computes over [float64].  The embedding is written once,
    over an interface [Float64Ops] of the float64 operations the code uses,
    and is read at two instances:

    - [float] (IEEE 754 binary64, Rocq's primitive floats): what the
      program computes, NaN and infinities included; every concrete run
      below is evaluated here;
    - [R] (exact real arithmetic): the idealisation without rounding,
      overflow and NaN.  It is not the program: a property proved here
      holds of the program only where binary64 agrees, so it is used for
      what the formulas are as real functions (derivatives, the Newton
      step, the extrema behind the bounding box), for the runs of [Find],
      which binary64 performs exactly, and for lemmas marked "in exact
      arithmetic".

    Panics are results: a function that can panic returns [result A]. *)

From Stdlib Require Import ZArith Reals Lra Lia Floats.
From stdpp Require Import base option list strings.

Set Default Proof Using "Type".

(** ** Panics *)

Inductive result (A : Type) : Type :=
  | Ok (a : A)
  | Panic (msg : string).
Arguments Ok {A} a.
Arguments Panic {A} msg.

#[global] Instance result_ret : MRet result := λ A a, Ok a.
#[global] Instance result_bind : MBind result := λ A B f r,
  match r with
  | Ok a => f a
  | Panic msg => Panic msg
  end.

(** [l[i]] read and [l[i] = v] write of a Go slice: out of range panics. *)
Definition index_panic : string := "index out of range".

Definition at_ {A} (l : list A) (i : nat) : result A :=
  match l !! i with
  | Some a => Ok a
  | None => Panic index_panic
  end.

Definition set_at {A} (l : list A) (i : nat) (v : A) : result (list A) :=
  if decide (i < length l) then Ok (<[i := v]> l) else Panic index_panic.

(** [for i := lo; i < lo + count; i++ { body }] over a state [St]. *)
Fixpoint for_up {St} (lo count : nat) (body : nat → St → result St) (s : St)
  : result St :=
  match count with
  | O => Ok s
  | S c => s' ← body lo s; for_up (S lo) c body s'
  end.

(** [for i := count - 1; i >= 0; i-- { body }]. *)
Fixpoint for_down {St} (count : nat) (body : nat → St → result St) (s : St)
  : result St :=
  match count with
  | O => Ok s
  | S c => s' ← body c s; for_down c body s'
  end.

(** ** The float64 operations the code uses *)

Class Float64Ops (F : Type) : Type := {
  f_of_int : Z → F;          (* float64(i), and integer constants *)
  f_to_int : F → Z;          (* int(t) *)
  f_add : F → F → F;
  f_sub : F → F → F;
  f_mul : F → F → F;
  f_div : F → F → F;
  f_ltb : F → F → bool;      (* x < y *)
  f_eqb : F → F → bool;      (* x == y *)
  f_sqrt : F → F             (* math.Sqrt *)
}.

Declare Scope F_scope.
Delimit Scope F_scope with F64.
Notation "x + y" := (f_add x y) : F_scope.
Notation "x - y" := (f_sub x y) : F_scope.
Notation "x * y" := (f_mul x y) : F_scope.
Notation "x / y" := (f_div x y) : F_scope.
Notation "x <? y" := (f_ltb x y) : F_scope.
Notation "x >? y" := (f_ltb y x) : F_scope.
Notation "x =? y" := (f_eqb x y) : F_scope.
Notation "x ≠? y" := (negb (f_eqb x y)) (at level 70) : F_scope.
Notation "# z" := (f_of_int z%Z) (at level 1, format "# z") : F_scope.

(** *** binary64 *)

Definition min_int64 : Z := - 2 ^ 63.
Definition max_int64 : Z := 2 ^ 63 - 1.

(** [float64(i)]: the nearest binary64 value. *)
Definition float_of_int (z : Z) : float :=
  SF2Prim (binary_normalize prec emax z 0 false).

(** [int(t)]: truncation toward zero.  Go leaves the result
    implementation-dependent when [t] is NaN, infinite or out of the range
    of int64; this is the amd64 behaviour, where the conversion then gives
    the minimum int64. *)
Definition float_to_int (t : float) : Z :=
  match Prim2SF t with
  | S754_zero _ => 0
  | S754_finite s m e =>
      let v := Z.shiftl (Z.pos m) e in
      let z := if s then (- v)%Z else v in
      if ((min_int64 <=? z) && (z <=? max_int64))%Z then z else min_int64
  | S754_infinity _ | S754_nan => min_int64
  end.

#[global] Instance float_ops : Float64Ops float := {|
  f_of_int := float_of_int;
  f_to_int := float_to_int;
  f_add := PrimFloat.add;
  f_sub := PrimFloat.sub;
  f_mul := PrimFloat.mul;
  f_div := PrimFloat.div;
  f_ltb := PrimFloat.ltb;
  f_eqb := PrimFloat.eqb;
  f_sqrt := PrimFloat.sqrt
|}.

(** *** Exact reals

    No rounding, no overflow, no NaN; [x / 0] is [x * / 0], a number, where
    the program has NaN or an infinity. *)

Definition Rltb (x y : R) : bool := if Rlt_dec x y then true else false.
Definition Reqb (x y : R) : bool := if Req_dec_T x y then true else false.
Definition Rtrunc (t : R) : Z :=
  if Rlt_dec t 0 then (- Zfloor (- t))%Z else Zfloor t.

#[global] Instance R_ops : Float64Ops R := {|
  f_of_int := IZR;
  f_to_int := Rtrunc;
  f_add := Rplus;
  f_sub := Rminus;
  f_mul := Rmult;
  f_div := Rdiv;
  f_ltb := Rltb;
  f_eqb := Reqb;
  f_sqrt := R_sqrt.sqrt
|}.

(** ** Vectors *)

Record V2 (F : Type) : Type := mkV2 { V2_X : F; V2_Y : F }.
Record V3 (F : Type) : Type := mkV3 { V3_X : F; V3_Y : F; V3_Z : F }.
Arguments mkV2 {F} _ _.
Arguments V2_X {F} _.
Arguments V2_Y {F} _.
Arguments mkV3 {F} _ _ _.
Arguments V3_X {F} _.
Arguments V3_Y {F} _.
Arguments V3_Z {F} _.

(** ** The rest of package sdf

    spline.go calls helpers of the package that are defined in other
    files.  [Abs], [Clamp] and [ZeroSmall] are modelled from the
    specification below; the remaining ones are not read by any property
    here and are kept abstract. *)

Class SdfPackage (F : Type) : Type := {
  EPSILON : F;                          (* the snapping fraction *)
  quadratic : F → F → F → list F;       (* real roots of a x² + b x + c *)
  Box2 : Type;
  V2Set_Box2 : list (V2 F) → Box2;      (* Box2{p.Min(), p.Max()} *)
  Box2_Extend : Box2 → Box2 → Box2
}.

Section Helpers.
Context {F : Type} `{!Float64Ops F}.
Local Open Scope F_scope.

(** Modelled from the spec: [Abs] is not in spline.go; the specification
    calls it the magnitude of a coefficient. *)
Definition Abs (x : F) : F := if x <? #0 then #0 - x else x.

(** Modelled from the spec: [Clamp] is not in spline.go; "clamps global
    t to [0, N-1]". *)
Definition Clamp (x a b : F) : F :=
  if x <? a then a else if x >? b then b else x.

(** Modelled from the spec: [ZeroSmall] is not in spline.go; "each
    coefficient whose magnitude is smaller than a fixed small fraction
    (epsilon) of the sum of absolute coefficient magnitudes is replaced
    with exactly zero". *)
Definition ZeroSmall (x y epsilon : F) : F :=
  if Abs x <? epsilon * y then #0 else x.
End Helpers.

(** ** TriDiagonal *)

Section TriDiagonal.
Context {F : Type} `{!Float64Ops F}.
Local Open Scope F_scope.

Definition bad_sizes : string := "bad sizes rows(m) != rows(d)".
Definition bad_values : string := "bad values for tridiagonal matrix".
Definition bad_pivot : string := "m[0].Y == 0".
Definition bad_denom : string := "denom == 0".

(** The body of the elimination loop; the state is [(cp, x)]. *)
Definition eliminate (m : list (V3 F)) (d : list F) (i : nat)
    (st : list F * list F) : result (list F * list F) :=
  let '(cp, x) := st in
  mi ← at_ m i;
  cp1 ← at_ cp (i - 1);
  let denom := V3_Y mi - V3_X mi * cp1 in
  if denom =? #0 then Panic bad_denom else
  cp ← set_at cp i (V3_Z mi / denom);
  di ← at_ d i;
  x1 ← at_ x (i - 1);
  x ← set_at x i ((di - V3_X mi * x1) / denom);
  Ok (cp, x).

(** The body of the back-substitution loop. *)
Definition substitute (cp : list F) (i : nat) (x : list F)
    : result (list F) :=
  xi ← at_ x i;
  cpi ← at_ cp i;
  xi1 ← at_ x (i + 1);
  set_at x i (xi - cpi * xi1).

Definition TriDiagonal (m : list (V3 F)) (d : list F) : result (list F) :=
  (* Sanity checks *)
  let n := length m in
  if negb (length d =? n)%nat then Panic bad_sizes else
  m0 ← at_ m 0;
  if V3_X m0 ≠? #0 then Panic bad_values else
  mlast ← at_ m (n - 1);
  if V3_Z mlast ≠? #0 then Panic bad_values else
  if V3_Y m0 =? #0 then Panic bad_pivot else
  let cp := replicate n #0 in
  let x := replicate n #0 in
  (* elimination *)
  cp ← set_at cp 0 (V3_Z m0 / V3_Y m0);
  d0 ← at_ d 0;
  x ← set_at x 0 (d0 / V3_Y m0);
  '(cp, x) ← for_up 1 (n - 1) (eliminate m d) (cp, x);
  (* back substitution *)
  for_down (n - 1) (substitute cp) x.
End TriDiagonal.

(** ** CubicPolynomial *)

Record CubicPolynomial (F : Type) : Type := mkPoly {
  a : F; b : F; c : F; d : F
}.
Arguments mkPoly {F} _ _ _ _.
Arguments a {F} _.
Arguments b {F} _.
Arguments c {F} _.
Arguments d {F} _.

Module CubicPolynomial.
Section CubicPolynomial.
Context {F : Type} `{!Float64Ops F} `{!SdfPackage F}.
Local Open Scope F_scope.

Definition f0 (p : CubicPolynomial F) (t : F) : F :=
  a p + t * (b p + t * (c p + d p * t)).

Definition f1 (p : CubicPolynomial F) (t : F) : F :=
  b p + t * (#2 * c p + #3 * d p * t).

Definition f2 (p : CubicPolynomial F) (t : F) : F :=
  #2 * c p + #6 * d p * t.

(** The sum of coefficient magnitudes [Set_] compares each coefficient
    with. *)
Definition Set_sum (y0 y1 D0 D1 : F) : F :=
  let pa := y0 in
  let pb := D0 in
  let pc := #3 * (y1 - y0) - #2 * D0 - D1 in
  let pd := #2 * (y0 - y1) + D0 + D1 in
  Abs pa + Abs pb + Abs pc + Abs pd.

(** [p.Set(y0, y1, D0, D1)] ([Set] is a reserved word here): every field
    of the receiver is overwritten, so the polynomial is a function of the
    arguments. *)
Definition Set_ (y0 y1 D0 D1 : F) : CubicPolynomial F :=
  let pa := y0 in
  let pb := D0 in
  let pc := #3 * (y1 - y0) - #2 * D0 - D1 in
  let pd := #2 * (y0 - y1) + D0 + D1 in
  let sum := Abs pa + Abs pb + Abs pc + Abs pd in
  mkPoly (ZeroSmall pa sum EPSILON) (ZeroSmall pb sum EPSILON)
         (ZeroSmall pc sum EPSILON) (ZeroSmall pd sum EPSILON).

Definition f1_zeroes (p : CubicPolynomial F) : list F :=
  quadratic (#3 * d p) (#2 * c p) (b p).
End CubicPolynomial.
End CubicPolynomial.

(** ** CubicSpline *)

Record CubicSpline (F : Type) : Type := mkSpline {
  idx : Z;                        (* index within spline set *)
  p0 : V2 F; p1 : V2 F;           (* end points of cubic spline *)
  px : CubicPolynomial F; py : CubicPolynomial F
}.
Arguments mkSpline {F} _ _ _ _ _.
Arguments idx {F} _.
Arguments p0 {F} _.
Arguments p1 {F} _.
Arguments px {F} _.
Arguments py {F} _.

(** [0.0001]: in binary64 the quotient is the value nearest to 1/10000,
    which is the value the constant has. *)
Definition NR_TOLERANCE {F} `{!Float64Ops F} : F := (#1 / #10000)%F64.
Definition NR_MAXITERS : Z := 10.

Module CubicSpline.
Section CubicSpline.
Context {F : Type} `{!Float64Ops F} `{!SdfPackage F}.
Local Open Scope F_scope.

Definition f0 (s : CubicSpline F) (t : F) : V2 F :=
  mkV2 (CubicPolynomial.f0 (px s) t) (CubicPolynomial.f0 (py s) t).

Definition f1 (s : CubicSpline F) (t : F) : V2 F :=
  mkV2 (CubicPolynomial.f1 (px s) t) (CubicPolynomial.f1 (py s) t).

Definition f2 (s : CubicSpline F) (t : F) : V2 F :=
  mkV2 (CubicPolynomial.f2 (px s) t) (CubicPolynomial.f2 (py s) t).

Definition BoundingBox (s : CubicSpline F) : Box2 :=
  let p := [p0 s; p1 s] in
  (* x minima/maxima *)
  let p := p ++ ((λ t, f0 s (Clamp t #0 #1)) <$> CubicPolynomial.f1_zeroes (px s)) in
  (* y minima/maxima *)
  let p := p ++ ((λ t, f0 s (Clamp t #0 #1)) <$> CubicPolynomial.f1_zeroes (py s)) in
  V2Set_Box2 p.

Definition NR_Iterate (s : CubicSpline F) (t : F) (p : V2 F) : F :=
  let f0 := f0 s t in
  let f1 := f1 s t in
  let f2 := f2 s t in
  let dx := V2_X f0 - V2_X p in
  let dy := V2_Y f0 - V2_Y p in
  t - (dx * V2_X f1 + dy * V2_Y f1)
      / (dx * V2_X f2 + V2_X f1 * V2_X f1 + dy * V2_Y f2 + V2_Y f1 * V2_Y f1).
End CubicSpline.
End CubicSpline.

(** ** CubicSplineSDF2 *)

Record CubicSplineSDF2 (F : Type) `{!SdfPackage F} : Type := mkSDF2 {
  spline : list (CubicSpline F);  (* cubic splines *)
  maxiters : Z;                   (* max newton-raphson iterations *)
  bb : Box2                       (* bounding box *)
}.
Arguments mkSDF2 {F _} _ _ _.
Arguments spline {F _} _.
Arguments maxiters {F _} _.
Arguments bb {F _} _.

(** How one pass through the body of the loop of [Evaluate] ends. *)
Inductive flow : Type := Break | Continue.

Section CubicSplineSDF2.
Context {F : Type} `{!Float64Ops F} `{!SdfPackage F}.
Local Open Scope F_scope.

(** [l[i]] for an [int] index. *)
Definition at_int {A} (l : list A) (i : Z) : result A :=
  if (i <? 0)%Z then Panic index_panic else at_ l (Z.to_nat i).

Definition Find (s : CubicSplineSDF2 F) (t : F) : result (CubicSpline F * F) :=
  let n := Z.of_nat (length (spline s)) in
  let t := Clamp t #0 #n in
  let i := f_to_int t in
  let t := t - #i in
  (* correct for the last spline *)
  let '(i, t) := if (i =? n)%Z then ((i - 1)%Z, #1) else (i, t) in
  cs ← at_int (spline s) i;
  Ok (cs, t).

Definition F0 (s : CubicSplineSDF2 F) (t : F) : result (V2 F) :=
  '(cs, t) ← Find s t; Ok (CubicSpline.f0 cs t).

Definition F1 (s : CubicSplineSDF2 F) (t : F) : result (V2 F) :=
  '(cs, t) ← Find s t; Ok (CubicSpline.f1 cs t).

Definition F2 (s : CubicSplineSDF2 F) (t : F) : result (V2 F) :=
  '(cs, t) ← Find s t; Ok (CubicSpline.f2 cs t).

Definition D0 (s : CubicSplineSDF2 F) (t : F) (p : V2 F) : result F :=
  f0 ← F0 s t;
  let dx := V2_X f0 - V2_X p in
  let dy := V2_Y f0 - V2_Y p in
  Ok (dx * dx + dy * dy).

Definition D1 (s : CubicSplineSDF2 F) (t : F) (p : V2 F) : result F :=
  f0 ← F0 s t;
  f1 ← F1 s t;
  let dx := V2_X f0 - V2_X p in
  let dy := V2_Y f0 - V2_Y p in
  Ok (#2 * (dx * V2_X f1 + dy * V2_Y f1)).

Definition D2 (s : CubicSplineSDF2 F) (t : F) (p : V2 F) : result F :=
  f0 ← F0 s t;
  f1 ← F1 s t;
  f2 ← F2 s t;
  let dx := V2_X f0 - V2_X p in
  let dy := V2_Y f0 - V2_Y p in
  Ok (#2 * (dx * V2_X f2 + V2_X f1 * V2_X f1 + dy * V2_Y f2 + V2_Y f1 * V2_Y f1)).

(** *** CubicSpline2D *)

Definition too_few_knots : string := "cubic splines need at least 2 knots".

(** Body of the loop filling the interior rows; the state is
    [(m, dx, dy)]. *)
Definition interior_row (knot : list (V2 F)) (i : nat)
    (st : list (V3 F) * list F * list F)
    : result (list (V3 F) * list F * list F) :=
  let '(m, dx, dy) := st in
  m ← set_at m i (mkV3 #1 #4 #1);
  k1 ← at_ knot (i + 1);
  k0 ← at_ knot (i - 1);
  dx ← set_at dx i (#3 * (V2_X k1 - V2_X k0));
  dy ← set_at dy i (#3 * (V2_Y k1 - V2_Y k0));
  Ok (m, dx, dy).

(** Body of the loop reformatting the solution as polynomials; the state
    is [s.spline]. *)
Definition make_segment (knot : list (V2 F)) (xx xy : list F) (i : nat)
    (sp : list (CubicSpline F)) : result (list (CubicSpline F)) :=
  ki ← at_ knot i;
  ki1 ← at_ knot (i + 1);
  xxi ← at_ xx i;
  xxi1 ← at_ xx (i + 1);
  xyi ← at_ xy i;
  xyi1 ← at_ xy (i + 1);
  set_at sp i
    (mkSpline (Z.of_nat i) ki ki1
       (CubicPolynomial.Set_ (V2_X ki) (V2_X ki1) xxi xxi1)
       (CubicPolynomial.Set_ (V2_Y ki) (V2_Y ki1) xyi xyi1)).

(** Body of the loop extending the bounding box; the state is [s.bb]. *)
Definition extend_box (sp : list (CubicSpline F)) (i : nat) (box : Box2)
    : result Box2 :=
  si ← at_ sp i;
  Ok (Box2_Extend box (CubicSpline.BoundingBox si)).

Definition zero_V2 : V2 F := mkV2 #0 #0.
Definition zero_V3 : V3 F := mkV3 #0 #0 #0.
Definition zero_poly : CubicPolynomial F := mkPoly #0 #0 #0 #0.
Definition zero_spline : CubicSpline F :=
  mkSpline 0 zero_V2 zero_V2 zero_poly zero_poly.

Definition CubicSpline2D (knot : list (V2 F)) : result (CubicSplineSDF2 F) :=
  if (length knot <? 2)%nat then Panic too_few_knots else
  (* Build and solve the tridiagonal matrices *)
  let n := length knot in
  let m := replicate n zero_V3 in
  let dx := replicate n #0 in
  let dy := replicate n #0 in
  '(m, dx, dy) ← for_up 1 (n - 2) (interior_row knot) (m, dx, dy);
  (* Special case the end splines. *)
  m ← set_at m 0 (mkV3 #0 #2 #1);
  k1 ← at_ knot 1;
  k0 ← at_ knot 0;
  dx ← set_at dx 0 (#3 * (V2_X k1 - V2_X k0));
  dy ← set_at dy 0 (#3 * (V2_Y k1 - V2_Y k0));
  m ← set_at m (n - 1) (mkV3 #1 #2 #0);
  kn1 ← at_ knot (n - 1);
  kn2 ← at_ knot (n - 2);
  dx ← set_at dx (n - 1) (#3 * (V2_X kn1 - V2_X kn2));
  dy ← set_at dy (n - 1) (#3 * (V2_Y kn1 - V2_Y kn2));
  (* solve to give the first derivatives at the knot points *)
  xx ← TriDiagonal m dx;
  xy ← TriDiagonal m dy;
  (* Reformat as the cubic polynomial coefficients. *)
  let sp := replicate (n - 1) zero_spline in
  sp ← for_up 0 (n - 1) (make_segment knot xx xy) sp;
  (* work out the bounding box *)
  s0 ← at_ sp 0;
  box ← for_up 1 (n - 2) (extend_box sp) (CubicSpline.BoundingBox s0);
  Ok (mkSDF2 sp NR_MAXITERS box).

(** *** Evaluate

    The two [fmt.Printf] calls only report progress and are left out. *)

(** The constant [n := 9] of [Evaluate]. *)
Definition Evaluate_n : Z := 9.

(** One pass through the body of the loop, from the state [(cs, t)]. *)
Definition Evaluate_body (s : CubicSplineSDF2 F) (p : V2 F)
    (st : CubicSpline F * F) : result (flow * (CubicSpline F * F)) :=
  let '(cs, t) := st in
  let n := Evaluate_n in
  let t_old := t in
  let t := CubicSpline.NR_Iterate cs t p in
  if t <? #0 then
    (* previous spline *)
    if (idx cs =? 0)%Z then
      (* no previous splines *)
      Ok (Break, (cs, #0))
    else
      (* find the previous spline *)
      st ← Find s (#(idx cs) + t); Ok (Continue, st)
  else if t >? #1 then
    (* next spline *)
    if (idx cs =? n - 1)%Z then
      (* on the last spline *)
      Ok (Break, (cs, #1))
    else
      (* find the next spline *)
      st ← Find s (#(idx cs) + t); Ok (Continue, st)
  else
    (* on the same spline *)
    if Abs (t - t_old) <? NR_TOLERANCE * Abs t then
      (* The t estimate is within tolerance *)
      Ok (Break, (cs, t))
    else Ok (Continue, (cs, t)).

(** [for i = 0; i < s.maxiters; i++ { body }], with [iters] passes left. *)
Fixpoint Evaluate_loop (s : CubicSplineSDF2 F) (p : V2 F) (iters : nat)
    (st : CubicSpline F * F) : result (CubicSpline F * F) :=
  match iters with
  | O => Ok st
  | S k =>
      r ← Evaluate_body s p st;
      match r with
      | (Break, st) => Ok st
      | (Continue, st) => Evaluate_loop s p k st
      end
  end.

Definition Evaluate (s : CubicSplineSDF2 F) (p : V2 F) : result F :=
  (* initial estimate *)
  let n := Evaluate_n in
  st ← Find s (#n / #2);
  '(cs, t) ← Evaluate_loop s p (Z.to_nat (maxiters s)) st;
  let t := t + #(idx cs) in
  d0 ← D0 s t p;
  let dmin := f_sqrt d0 in
  Ok dmin.
End CubicSplineSDF2.

(** ** The rest of [CubicSplineSDF2] *)

(** The polygon helpers of the package that spline.go calls; they are
    defined in other files and kept abstract.  A [*Polygon] is an object
    that [AddV2] mutates; here the polygon is passed along. *)
Class PolygonPackage (F : Type) : Type := {
  Polygon : Type;
  NewPolygon : Polygon;
  Polygon_AddV2 : Polygon → V2 F → Polygon;     (* p.AddV2(v) *)
  Polygon_Vertices : Polygon → list (V2 F);     (* p.Vertices() *)
  SDF2 : Type;
  Polygon2D : list (V2 F) → SDF2
}.

Module CubicSplineSDF2.
Section CubicSplineSDF2.
Context {F : Type} `{!Float64Ops F} `{!SdfPackage F} `{!PolygonPackage F}.
Local Open Scope F_scope.

(** [s.BoundingBox()]: the box stored when the set was built. *)
Definition BoundingBox (s : CubicSplineSDF2 F) : Box2 := bb s.

(** Body of the loop of [Polygonize]; the state is the polygon and [t]. *)
Definition Polygonize_body (s : CubicSplineSDF2 F) (dt : F) (i : nat)
    (st : Polygon * F) : result (Polygon * F) :=
  let '(p, t) := st in
  v ← F0 s t;
  Ok (Polygon_AddV2 p v, t + dt).

(** [s.Polygonize(n)].  [n] is an [int]: [n - 1] wraps only at the
    minimum int64, where the loop is not entered and [dt] is not read. *)
Definition Polygonize (s : CubicSplineSDF2 F) (n : Z) : result Polygon :=
  let p := NewPolygon in
  let dt := #(Z.of_nat (length (spline s))) / #(n - 1) in
  let t := #0 in
  '(p, t) ← for_up 0 (Z.to_nat n) (Polygonize_body s dt) (p, t);
  Ok p.

(** [s.PolySpline2D(n)]. *)
Definition PolySpline2D (s : CubicSplineSDF2 F) (n : Z) : result SDF2 :=
  p ← Polygonize s n;
  Ok (Polygon2D (Polygon_Vertices p)).
End CubicSplineSDF2.
End CubicSplineSDF2.

(** ** An instance of the package helpers

  The concrete runs below need the helpers that [SdfPackage] keeps
  abstract.  The general theorems hold for every instance. *)

Section SpecPackage.
Context {F : Type} `{!Float64Ops F}.
Local Open Scope F_scope.

(** Modelled from the spec: [quadratic] is not in spline.go; it "returns
    the real roots (0, 1, or 2)" of [a t² + b t + c]. *)
Definition spec_quadratic (a b c : F) : list F :=
  if a =? #0 then
    if b =? #0 then [] else [(#0 - c) / b]
  else
    let det := b * b - #4 * a * c in
    if det <? #0 then []
    else if det =? #0 then [(#0 - b) / (#2 * a)]
    else [((#0 - b) + f_sqrt det) / (#2 * a); ((#0 - b) - f_sqrt det) / (#2 * a)].

Definition f_min (x y : F) : F := if y <? x then y else x.
Definition f_max (x y : F) : F := if x <? y then y else x.

(** Modelled from the spec: [V2Set.Min], [V2Set.Max] and [Box2] are not
    in spline.go; the box is "the axis-aligned box covering all sampled
    points". *)
Definition spec_box (p : list (V2 F)) : V2 F * V2 F :=
  match p with
  | [] => (mkV2 #0 #0, mkV2 #0 #0)
  | v :: p =>
      (foldl (λ lo w, mkV2 (f_min (V2_X lo) (V2_X w)) (f_min (V2_Y lo) (V2_Y w))) v p,
       foldl (λ hi w, mkV2 (f_max (V2_X hi) (V2_X w)) (f_max (V2_Y hi) (V2_Y w))) v p)
  end.

(** Modelled from the spec: [Box2.Extend] is not in spline.go; the box
    of the set is "the union of all segment bounding boxes". *)
Definition spec_extend (x y : V2 F * V2 F) : V2 F * V2 F :=
  (mkV2 (f_min (V2_X x.1) (V2_X y.1)) (f_min (V2_Y x.1) (V2_Y y.1)),
   mkV2 (f_max (V2_X x.2) (V2_X y.2)) (f_max (V2_Y x.2) (V2_Y y.2))).

Definition spec_package (epsilon : F) : SdfPackage F := {|
  EPSILON := epsilon;
  quadratic := spec_quadratic;
  Box2 := V2 F * V2 F;
  V2Set_Box2 := spec_box;
  Box2_Extend := spec_extend
|}.
End SpecPackage.

(** Modelled from the spec: the value of [EPSILON] is not in spline.go; the
    specification calls it "a fixed small fraction".  The runs below use
    1e-12, as the quotient of two integers that binary64 holds exactly. *)
Definition float_package : SdfPackage float :=
  spec_package (#1 / #1000000000000)%F64.

(** ** Notions the properties are stated with *)

Section Notions.
Context {F : Type} `{!Float64Ops F}.
Local Open Scope F_scope.

(** Entry [i] of a vector and row [i] of a matrix, zero out of range. *)
Definition get (l : list F) (i : nat) : F := default #0 (l !! i).
Definition row (m : list (V3 F)) (i : nat) : V3 F := default zero_V3 (m !! i).

(** The values the elimination of [TriDiagonal] stores in [cp[i]], and the
    denominator it divides by in row [i] (the pivot [m[0].Y] in row 0). *)
Fixpoint cprime (m : list (V3 F)) (i : nat) : F :=
  V3_Z (row m i) /
  match i with
  | O => V3_Y (row m 0)
  | S j => V3_Y (row m i) - V3_X (row m i) * cprime m j
  end.

Definition denom (m : list (V3 F)) (i : nat) : F :=
  match i with
  | O => V3_Y (row m 0)
  | S j => V3_Y (row m i) - V3_X (row m i) * cprime m j
  end.

(** The values the elimination stores in [x[i]]. *)
Fixpoint dprime (m : list (V3 F)) (d : list F) (i : nat) : F :=
  match i with
  | O => get d 0 / V3_Y (row m 0)
  | S j => (get d i - V3_X (row m i) * dprime m d j) / denom m i
  end.

(** The value the back substitution leaves in [x[i]], [k] rows above the
    last one. *)
Fixpoint backsub (m : list (V3 F)) (d : list F) (i k : nat) : F :=
  match k with
  | O => dprime m d i
  | S k' => dprime m d i - cprime m i * backsub m d (S i) k'
  end.

(** Row [i] of the product [M·x] of the tridiagonal matrix with rows [m]:
    row 0 has no sub-diagonal entry and the last row no super-diagonal
    entry. *)
Definition mat_vec (m : list (V3 F)) (x : list F) (i : nat) : F :=
  (if decide (i = 0%nat) then #0 else V3_X (row m i) * get x (i - 1))
  + V3_Y (row m i) * get x i
  + (if decide (i = (length m - 1)%nat) then #0 else V3_Z (row m i) * get x (i + 1)).

(** The first and second derivative of the squared distance from [p] to
    the point of the segment at [t], as the specification writes them. *)
Definition sq_dist_d1 (s : CubicSpline F) (t : F) (p : V2 F) : F :=
  let dx := V2_X (CubicSpline.f0 s t) - V2_X p in
  let dy := V2_Y (CubicSpline.f0 s t) - V2_Y p in
  #2 * (dx * V2_X (CubicSpline.f1 s t) + dy * V2_Y (CubicSpline.f1 s t)).

Definition sq_dist_d2 (s : CubicSpline F) (t : F) (p : V2 F) : F :=
  let dx := V2_X (CubicSpline.f0 s t) - V2_X p in
  let dy := V2_Y (CubicSpline.f0 s t) - V2_Y p in
  #2 * (dx * V2_X (CubicSpline.f2 s t)
        + V2_X (CubicSpline.f1 s t) * V2_X (CubicSpline.f1 s t)
        + dy * V2_Y (CubicSpline.f2 s t)
        + V2_Y (CubicSpline.f1 s t) * V2_Y (CubicSpline.f1 s t)).


(** The sum of coefficient magnitudes of a polynomial. *)
Definition coeff_sum (p : CubicPolynomial F) : F :=
  Abs (a p) + Abs (b p) + Abs (c p) + Abs (d p).
End Notions.

(** ** Notions for [TriDiagonal] *)

Section TriDiagonalNotions.
Context {F : Type} `{!Float64Ops F}.
Local Open Scope F_scope.
Implicit Types (m : list (V3 F)) (d x cp : list F).

(** The state of the elimination before row [i]. *)
Definition elim_I m d (i : nat) (st : list F * list F) : Prop :=
  length st.1 = length m ∧ length st.2 = length m ∧
  (∀ j, j < i → st.1 !! j = Some (cprime m j) ∧ st.2 !! j = Some (dprime m d j)) ∧
  (∀ j, 1 ≤ j < i → (denom m j =? #0) = false).

(** The state of the back substitution when rows [i..n-1] are done. *)
Definition back_I m d (i : nat) x : Prop :=
  length x = length m ∧
  (∀ j, j < i → x !! j = Some (dprime m d j)) ∧
  (∀ j, i ≤ j < length m → x !! j = Some (backsub m d j (length m - 1 - j))).

(** What [TriDiagonal] checks, on the entries of the matrix. *)
Definition accepts m : Prop :=
  (V3_X (row m 0) =? #0) = true ∧
  (V3_Z (row m (length m - 1)) =? #0) = true ∧
  (V3_Y (row m 0) =? #0) = false ∧
  (∀ i, 1 ≤ i < length m → (denom m i =? #0) = false).
End TriDiagonalNotions.

(** ** Notions for [CubicSpline2D] and [Evaluate] *)

Section SplineNotions.
Context {F : Type} `{!Float64Ops F} `{!SdfPackage F}.
Local Open Scope F_scope.
Implicit Types (knot : list (V2 F)) (xx xy : list F).

Definition knot_at knot (i : nat) : V2 F := default zero_V2 (knot !! i).

(** Row [i] of the matrix [CubicSpline2D] builds for [n] knots. *)
Definition spline_row (n i : nat) : V3 F :=
  if decide (i = 0%nat) then mkV3 #0 #2 #1
  else if decide (i = (n - 1)%nat) then mkV3 #1 #2 #0
  else mkV3 #1 #4 #1.

Definition spline_matrix (n : nat) : list (V3 F) := spline_row n <$> seq 0 n.

(** Entry [i] of the right-hand side for the coordinate [co]. *)
Definition spline_rhs_at (co : V2 F → F) knot (i : nat) : F :=
  let n := length knot in
  if decide (i = 0%nat) then #3 * (co (knot_at knot 1) - co (knot_at knot 0))
  else if decide (i = (n - 1)%nat)
       then #3 * (co (knot_at knot (n - 1)) - co (knot_at knot (n - 2)))
  else #3 * (co (knot_at knot (i + 1)) - co (knot_at knot (i - 1))).

Definition spline_rhs (co : V2 F → F) knot : list F :=
  spline_rhs_at co knot <$> seq 0 (length knot).

(** Segment [i] for the knot derivatives [xx], [xy]. *)
Definition segment_of knot xx xy (i : nat) : CubicSpline F :=
  mkSpline (Z.of_nat i) (knot_at knot i) (knot_at knot (i + 1))
    (CubicPolynomial.Set_ (V2_X (knot_at knot i)) (V2_X (knot_at knot (i + 1)))
       (get xx i) (get xx (i + 1)))
    (CubicPolynomial.Set_ (V2_Y (knot_at knot i)) (V2_Y (knot_at knot (i + 1)))
       (get xy i) (get xy (i + 1))).

(** The rows and right-hand sides when the loop over the interior rows
    has reached row [i]. *)
Definition interior_m (i j : nat) : V3 F :=
  if decide (1 ≤ j < i) then mkV3 #1 #4 #1 else zero_V3.

Definition interior_d (co : V2 F → F) knot (i j : nat) : F :=
  if decide (1 ≤ j < i)
  then #3 * (co (knot_at knot (j + 1)) - co (knot_at knot (j - 1))) else #0.

Definition interior_I knot (i : nat)
    (st : list (V3 F) * list F * list F) : Prop :=
  let n := length knot in
  st = (interior_m i <$> seq 0 n,
        interior_d V2_X knot i <$> seq 0 n,
        interior_d V2_Y knot i <$> seq 0 n).

(** The segments when the loop over the segments has reached [i]. *)
Definition segments_I knot xx xy (i : nat) (sp : list (CubicSpline F)) : Prop :=
  sp = (λ j, if decide (j < i) then segment_of knot xx xy j else zero_spline)
         <$> seq 0 (length knot - 1).

(** What [Evaluate] does after the initial estimate [st]. *)
Definition Evaluate_after (s : CubicSplineSDF2 F) (p : V2 F)
    (st : CubicSpline F * F) : result F :=
  '(cs, t) ← Evaluate_loop s p (Z.to_nat (maxiters s)) st;
  let t := t + #(idx cs) in
  d0 ← D0 s t p;
  Ok (f_sqrt d0).


(** The set [CubicSpline2D] builds, empty when it panics. *)
Definition built knot : CubicSplineSDF2 F :=
  match CubicSpline2D knot with
  | Ok s => s
  | Panic _ => mkSDF2 [] 0 (V2Set_Box2 [])
  end.
End SplineNotions.

(** ** Notions of the properties in binary64 *)

Section ProgramNotions.
Context {F : Type} `{!Float64Ops F} `{!SdfPackage F}.
Local Open Scope F_scope.

(** [u] and [v] differ by [tol] at most, as the program can test it. *)
Definition within (tol u v : F) : bool :=
  (Abs (u - v) <? tol) || (Abs (u - v) =? tol).


End ProgramNotions.

(** The differences of the first derivative across the interior knots of
    a set: end of one segment minus start of the next. *)
Definition derivative_jumps {F : Type} `{!Float64Ops F} `{!SdfPackage F}
    (s : CubicSplineSDF2 F) : list (V2 F) :=
  zip_with (λ s1 s2, mkV2 (V2_X (CubicSpline.f1 s1 #1) - V2_X (CubicSpline.f1 s2 #0))%F64
                          (V2_Y (CubicSpline.f1 s1 #1) - V2_Y (CubicSpline.f1 s2 #0))%F64)
    (spline s) (drop 1 (spline s)).


(** ** Notions of the further properties *)

Section MoreNotions.
Context {F : Type} `{!Float64Ops F} `{!SdfPackage F} `{!PolygonPackage F}.
Local Open Scope F_scope.

(** The squared distance from [p] to the point of the segment at [t]. *)
Definition sq_dist (s : CubicSpline F) (t : F) (p : V2 F) : F :=
  let dx := V2_X (CubicSpline.f0 s t) - V2_X p in
  let dy := V2_Y (CubicSpline.f0 s t) - V2_Y p in
  dx * dx + dy * dy.

(** The global parameter of vertex [k] of [Polygonize s n]: [k] times
    [dt], accumulated by addition. *)
Fixpoint polygon_t (dt : F) (k : nat) : F :=
  match k with
  | O => #0
  | S k' => polygon_t dt k' + dt
  end.
End MoreNotions.

(** The number a query returns, 0 when it panics. *)
Definition result_value (r : result R) : R :=
  match r with
  | Ok v => v
  | Panic _ => 0%R
  end.

(** A point lies in a box given by its corners. *)
Definition inside_box (v : V2 R) (box : V2 R * V2 R) : Prop :=
  (V2_X box.1 <= V2_X v <= V2_X box.2)%R ∧ (V2_Y box.1 <= V2_Y v <= V2_Y box.2)%R.

Section BoxNotions.
Context `{!SdfPackage R}.
Local Open Scope R_scope.

(** [quadratic a b c] holds every root of [a t² + b t + c], unless the
    quadratic is a constant. *)
Definition finds_roots : Prop :=
  ∀ a b c t, a ≠ 0 ∨ b ≠ 0 → a * (t * t) + b * t + c = 0 → t ∈ quadratic a b c.

(** The points [CubicSpline.BoundingBox] collects. *)
Definition box_points (cs : CubicSpline R) : list (V2 R) :=
  ([p0 cs; p1 cs]
     ++ ((λ t, CubicSpline.f0 cs (Clamp t 0 1)) <$> CubicPolynomial.f1_zeroes (px cs)))
    ++ ((λ t, CubicSpline.f0 cs (Clamp t 0 1)) <$> CubicPolynomial.f1_zeroes (py cs)).

(** A box of a list of points covers a point when the point lies, in
    each coordinate, between two points of the list. *)
Definition covers (inside : V2 R → Box2 → Prop) : Prop :=
  ∀ pts v,
    (∃ lo hi, lo ∈ pts ∧ hi ∈ pts ∧ V2_X lo <= V2_X v <= V2_X hi) →
    (∃ lo hi, lo ∈ pts ∧ hi ∈ pts ∧ V2_Y lo <= V2_Y v <= V2_Y hi) →
    inside v (V2Set_Box2 pts).
End BoxNotions.

(** ** Inputs of the concrete runs *)

#[global] Existing Instance float_package.

(** The package helpers in exact arithmetic, with the same [EPSILON]. *)
Definition real_package : SdfPackage R := spec_package (1 / 1000000000000)%R.

(** Three knots on a line: two segments. *)
Definition knots_line3 : list (V2 float) :=
  [mkV2 0 0; mkV2 1 0; mkV2 2 0]%float.

(** Twelve knots on a line, unevenly spaced: eleven segments. *)
Definition knots_line12 : list (V2 float) :=
  [mkV2 0 0; mkV2 1 0; mkV2 2 0; mkV2 3 0; mkV2 4 0; mkV2 5 0; mkV2 6 0;
   mkV2 7 0; mkV2 8 0; mkV2 8.5 0; mkV2 10 0; mkV2 11 0]%float.

(** One knot twice: a segment that is a point. *)
Definition knots_point : list (V2 float) := [mkV2 0 0; mkV2 0 0]%float.

(** Three distinct knots on a line, spaced so that the curve comes to a
    halt at the last one: the last segment is [x(t) = (1 - t)³]. *)
Definition knots_halt : list (V2 float) :=
  [mkV2 6 0; mkV2 1 0; mkV2 0 0]%float.

(** Three knots off a line, in exact arithmetic. *)
Definition knots_hat : list (V2 R) := [mkV2 0 0; mkV2 1 1; mkV2 2 0]%R.

(** A smooth step from (0, 0) to (1, 1). *)
Definition step_segment : CubicSpline R :=
  (mkSpline 0%Z (mkV2 0 0) (mkV2 1 1) (mkPoly 0 0 3 (-2)) (mkPoly 0 1 0 0))%R.

(** A set of one segment, and a set without segments. *)
Definition step_set : @CubicSplineSDF2 R real_package :=
  mkSDF2 [step_segment] 10 (@V2Set_Box2 R real_package []).
Definition empty_set : CubicSplineSDF2 float :=
  mkSDF2 [] 0 (V2Set_Box2 []).


Definition knots_curve : list (V2 float) :=
  [mkV2 0 0; mkV2 1 2; mkV2 3 1; mkV2 4 5; mkV2 6 0.25]%float.

(** A matrix with a tiny pivot, and a right-hand side. *)
Definition tiny_pivot : list (V3 float) :=
  [mkV3 0 0x1p-70 1; mkV3 1 1 0]%float.

(** Unfolds the operations of the interface at the reals. *)
Ltac unfold_R :=
  cbn [f_add f_sub f_mul f_div f_ltb f_eqb f_of_int f_to_int f_sqrt R_ops] in *.

(** * Properties *)

(** ** Slices and loops *)

Section Loops.
Context {A : Type}.
Implicit Types (l : list A) (i : nat).

Lemma at_Ok l i v : at_ l i = Ok v ↔ l !! i = Some v.
Proof. unfold at_. destruct (l !! i); split; congruence. Qed.

Lemma at_lt l i : i < length l → ∃ v, at_ l i = Ok v ∧ l !! i = Some v.
Proof.
  intros Hi. destruct (lookup_lt_is_Some_2 l i Hi) as [v Hv].
  exists v. split; [by apply at_Ok | done].
Qed.

Lemma set_at_Ok l i v l' :
  set_at l i v = Ok l' ↔ i < length l ∧ l' = <[i := v]> l.
Proof.
  unfold set_at. destruct (decide (i < length l)); split.
  - intros [= <-]. done.
  - intros [_ ->]. done.
  - done.
  - intros [? _]. lia.
Qed.

Lemma set_at_lt l i v : i < length l → set_at l i v = Ok (<[i := v]> l).
Proof. intros. by apply set_at_Ok. Qed.
End Loops.

Section LoopRules.
Context {St : Type}.
Implicit Types (body : nat → St → result St) (I : nat → St → Prop).

Lemma bind_Ok {A B} (r : result A) (f : A → result B) (y : B) :
  r ≫= f = Ok y ↔ ∃ x, r = Ok x ∧ f x = Ok y.
Proof.
  destruct r as [x|msg]; simpl; split.
  - intros. by exists x.
  - by intros (? & [= <-] & ?).
  - done.
  - by intros (? & ? & ?).
Qed.

(** An invariant carried through a loop that returns. *)
Lemma for_up_inv I body lo count s s' :
  for_up lo count body s = Ok s' →
  I lo s →
  (∀ i s1 s2, lo ≤ i < lo + count → I i s1 → body i s1 = Ok s2 → I (S i) s2) →
  I (lo + count) s'.
Proof.
  revert lo s. induction count as [|count IH]; intros lo s Hrun H0 Hstep.
  - injection Hrun as <-. by rewrite Nat.add_0_r.
  - simpl in Hrun. apply bind_Ok in Hrun as (s1 & Hb & Hrun).
    replace (lo + S count) with (S lo + count) by lia.
    apply (IH (S lo) s1 Hrun).
    + apply (Hstep lo s); [lia | done..].
    + intros i t1 t2 Hi. apply Hstep. lia.
Qed.

(** A loop whose body returns under the invariant returns. *)
Lemma for_up_total I body lo count s :
  I lo s →
  (∀ i s1, lo ≤ i < lo + count → I i s1 → ∃ s2, body i s1 = Ok s2 ∧ I (S i) s2) →
  ∃ s', for_up lo count body s = Ok s' ∧ I (lo + count) s'.
Proof.
  revert lo s. induction count as [|count IH]; intros lo s H0 Hstep.
  - exists s. by rewrite Nat.add_0_r.
  - destruct (Hstep lo s) as (s1 & Hb & H1); [lia | done |].
    destruct (IH (S lo) s1 H1) as (s' & Hrun & H').
    { intros i t1 Hi. apply Hstep. lia. }
    exists s'. simpl. rewrite Hb. simpl.
    replace (lo + S count) with (S lo + count) by lia. done.
Qed.

Lemma for_down_inv I body count s s' :
  for_down count body s = Ok s' →
  I count s →
  (∀ i s1 s2, i < count → I (S i) s1 → body i s1 = Ok s2 → I i s2) →
  I 0 s'.
Proof.
  revert s. induction count as [|count IH]; intros s Hrun H0 Hstep.
  - by injection Hrun as <-.
  - simpl in Hrun. apply bind_Ok in Hrun as (s1 & Hb & Hrun).
    apply (IH s1 Hrun).
    + apply (Hstep count s); [lia | done..].
    + intros i t1 t2 Hi. apply Hstep. lia.
Qed.

Lemma for_down_total I body count s :
  I count s →
  (∀ i s1, i < count → I (S i) s1 → ∃ s2, body i s1 = Ok s2 ∧ I i s2) →
  ∃ s', for_down count body s = Ok s' ∧ I 0 s'.
Proof.
  revert s. induction count as [|count IH]; intros s H0 Hstep.
  - by exists s.
  - destruct (Hstep count s) as (s1 & Hb & H1); [lia | done |].
    destruct (IH s1 H1) as (s' & Hrun & H').
    { intros i t1 Hi. apply Hstep. lia. }
    exists s'. simpl. by rewrite Hb.
Qed.
End LoopRules.

(** ** The elimination and the back substitution *)

Section TriDiagonalFacts.
Context {F : Type} `{!Float64Ops F}.
Local Open Scope F_scope.
Implicit Types (m : list (V3 F)) (d x cp : list F).

Lemma row_lookup m i r : m !! i = Some r → row m i = r.
Proof. unfold row. by intros ->. Qed.

Lemma get_lookup x i v : x !! i = Some v → get x i = v.
Proof. unfold get. by intros ->. Qed.

Lemma lookup_row m i : i < length m → m !! i = Some (row m i).
Proof.
  intros Hi. destruct (lookup_lt_is_Some_2 m i Hi) as [r Hr].
  by rewrite (row_lookup _ _ _ Hr).
Qed.

Lemma lookup_get x i : i < length x → x !! i = Some (get x i).
Proof.
  intros Hi. destruct (lookup_lt_is_Some_2 x i Hi) as [r Hr].
  by rewrite (get_lookup _ _ _ Hr).
Qed.

Lemma TriDiagonal_bad_sizes m d :
  length d ≠ length m → TriDiagonal m d = Panic bad_sizes.
Proof.
  intros Hne. unfold TriDiagonal.
  destruct (Nat.eqb_spec (length d) (length m)); [done | reflexivity].
Qed.

Lemma eliminate_step m d i st :
  1 ≤ i < length m → length d = length m → elim_I m d i st →
  eliminate m d i st =
    if denom m i =? #0 then Panic bad_denom
    else Ok (<[i := cprime m i]> st.1, <[i := dprime m d i]> st.2).
Proof.
  intros Hi Hd (Hcp & Hx & Hlt & _). destruct st as [cp x]. simpl in *.
  destruct i as [|j]; [lia |].
  destruct (Hlt j) as [Hcpj Hxj]; [lia |].
  unfold eliminate.
  rewrite (proj2 (at_Ok m (S j) _) (lookup_row m (S j) ltac:(lia))). simpl.
  replace (j - 0)%nat with j by lia.
  rewrite (proj2 (at_Ok cp j _) Hcpj). simpl.
  destruct (_ =? _); [done |].
  rewrite set_at_lt by lia. simpl.
  rewrite (proj2 (at_Ok d (S j) _) (lookup_get d (S j) ltac:(lia))). simpl.
  rewrite (proj2 (at_Ok x j _) Hxj). simpl.
  rewrite set_at_lt by lia. done.
Qed.

Lemma elim_I_step m d i st :
  i < length m → elim_I m d i st → (1 ≤ i → (denom m i =? #0) = false) →
  elim_I m d (S i) (<[i := cprime m i]> st.1, <[i := dprime m d i]> st.2).
Proof.
  intros Hi (Hcp & Hx & Hlt & Hden) Hdi. unfold elim_I. simpl.
  rewrite !length_insert. split_and!; [done | done | |].
  - intros j Hj. destruct (decide (j = i)) as [-> | Hne].
    + rewrite !list_lookup_insert_eq by lia. done.
    + rewrite !list_lookup_insert_ne by done. apply Hlt. lia.
  - intros j Hj. destruct (decide (j = i)) as [-> | Hne].
    + apply Hdi. lia.
    + apply Hden. lia.
Qed.

Lemma substitute_step m d cp i x :
  S i < length m → length cp = length m →
  (∀ j, j < length m → cp !! j = Some (cprime m j)) →
  back_I m d (S i) x →
  substitute cp i x = Ok (<[i := backsub m d i (length m - 1 - i)]> x) ∧
  back_I m d i (<[i := backsub m d i (length m - 1 - i)]> x).
Proof.
  intros Hi Hcp Hcpj (Hx & Hlo & Hhi). split.
  - unfold substitute.
    rewrite (proj2 (at_Ok x i _) (Hlo i ltac:(lia))). simpl.
    rewrite (proj2 (at_Ok cp i _) (Hcpj i ltac:(lia))). simpl.
    replace (i + 1)%nat with (S i) by lia.
    rewrite (proj2 (at_Ok x (S i) _) (Hhi (S i) ltac:(lia))). simpl.
    rewrite set_at_lt by lia.
    replace (length m - 1 - i)%nat with (S (length m - 1 - S i)) by lia.
    done.
  - unfold back_I. rewrite length_insert. split_and!; [done | |].
    + intros j Hj. rewrite list_lookup_insert_ne by lia. apply Hlo. lia.
    + intros j Hj. destruct (decide (j = i)) as [-> | Hne].
      * by rewrite list_lookup_insert_eq by lia.
      * rewrite list_lookup_insert_ne by done. apply Hhi. lia.
Qed.

Lemma TriDiagonal_prelude m d :
  length d = length m → 0 < length m →
  TriDiagonal m d =
    if V3_X (row m 0) ≠? #0 then Panic bad_values else
    if V3_Z (row m (length m - 1)) ≠? #0 then Panic bad_values else
    if V3_Y (row m 0) =? #0 then Panic bad_pivot else
    '(cp, x) ← for_up 1 (length m - 1) (eliminate m d)
       (<[0%nat := cprime m 0]> (replicate (length m) #0),
        <[0%nat := dprime m d 0]> (replicate (length m) #0));
    for_down (length m - 1) (substitute cp) x.
Proof.
  intros Hd Hn. unfold TriDiagonal.
  rewrite Hd, Nat.eqb_refl. simpl.
  rewrite (proj2 (at_Ok m 0 _) (lookup_row m 0 Hn)). simpl.
  destruct (_ ≠? _); [done |].
  rewrite (proj2 (at_Ok m _ _) (lookup_row m (length m - 1) ltac:(lia))). simpl.
  destruct (_ ≠? _); [done |].
  destruct (_ =? _); [done |].
  rewrite set_at_lt by (rewrite length_replicate; lia). simpl.
  rewrite (proj2 (at_Ok d 0 _) (lookup_get d 0 ltac:(lia))). simpl.
  rewrite set_at_lt by (rewrite length_replicate; lia). simpl.
  done.
Qed.

Lemma elim_I_init m d :
  0 < length m →
  elim_I m d 1 (<[0%nat := cprime m 0]> (replicate (length m) #0),
                <[0%nat := dprime m d 0]> (replicate (length m) #0)).
Proof.
  intros Hn. unfold elim_I. simpl. rewrite !length_insert, !length_replicate.
  split_and!; [done | done | |].
  - intros j Hj. replace j with 0%nat by lia.
    rewrite !list_lookup_insert_eq by (rewrite length_replicate; lia). done.
  - intros j Hj. lia.
Qed.

Lemma TriDiagonal_sound m d x :
  TriDiagonal m d = Ok x →
  length d = length m ∧ 0 < length m ∧ accepts m ∧
  length x = length m ∧
  ∀ i, i < length m → x !! i = Some (backsub m d i (length m - 1 - i)).
Proof.
  intros Hrun.
  destruct (decide (length d = length m)) as [Hd | Hd];
    [| by rewrite TriDiagonal_bad_sizes in Hrun].
  destruct (decide (0 < length m)) as [Hn | Hn].
  2: { unfold TriDiagonal in Hrun. rewrite Hd, Nat.eqb_refl in Hrun.
       destruct m; [done | simpl in Hn; lia]. }
  rewrite TriDiagonal_prelude in Hrun by done.
  destruct (V3_X (row m 0) =? #0) eqn:HX; [| done].
  destruct (V3_Z (row m (length m - 1)) =? #0) eqn:HZ; [| done].
  destruct (V3_Y (row m 0) =? #0) eqn:HY; [done |]. simpl in Hrun.
  apply bind_Ok in Hrun as ([cp dp] & Hel & Hback).
  pose proof (for_up_inv (elim_I m d) _ _ _ _ _ Hel (elim_I_init m d Hn)) as Hinv.
  replace (1 + (length m - 1))%nat with (length m) in Hinv by lia.
  destruct Hinv as (Hcp & Hdp & Hlt & Hden).
  { intros i s1 s2 Hi HI Hb. rewrite eliminate_step in Hb by (done || lia).
    destruct (denom m i =? #0) eqn:Hdi; [done |].
    injection Hb as <-. apply elim_I_step; [lia | done | done]. }
  simpl in *.
  assert (back_I m d 0 x) as (Hx & _ & Hhi).
  { apply (for_down_inv (back_I m d) _ _ _ _ Hback).
    - split_and!; [done | |].
      + intros j Hj. apply Hlt. lia.
      + intros j Hj. replace j with (length m - 1)%nat by lia.
        replace (length m - 1 - (length m - 1))%nat with 0%nat by lia.
        simpl. apply Hlt. lia.
    - intros i s1 s2 Hi HI Hb.
      destruct (substitute_step m d cp i s1) as [Hs HI'];
        [lia | done | intros; by apply Hlt | done |].
      rewrite Hs in Hb. by injection Hb as <-. }
  split_and!; try done.
  intros i Hi. apply Hhi. lia.
Qed.

Lemma TriDiagonal_complete m d :
  length d = length m → 0 < length m → accepts m →
  ∃ x, TriDiagonal m d = Ok x.
Proof.
  intros Hd Hn (HX & HZ & HY & Hden).
  rewrite TriDiagonal_prelude by done. rewrite HX, HZ, HY. cbn [negb].
  destruct (for_up_total (λ i st, elim_I m d i st) (eliminate m d) 1 (length m - 1) _
              (elim_I_init m d Hn)) as ([cp dp] & Hel & Hinv).
  { intros i s1 Hi HI. rewrite eliminate_step by (done || lia).
    rewrite Hden by lia. eexists. split; [done |].
    apply elim_I_step; [lia | done | intros; apply Hden; lia]. }
  rewrite Hel. simpl.
  replace (1 + (length m - 1))%nat with (length m) in Hinv by lia.
  destruct Hinv as (Hcp & Hdp & Hlt & _). simpl in *.
  destruct (for_down_total (back_I m d) (substitute cp) (length m - 1) dp)
    as (x & Hback & _).
  - split_and!; [done | |].
    + intros j Hj. apply Hlt. lia.
    + intros j Hj. replace j with (length m - 1)%nat by lia.
      replace (length m - 1 - (length m - 1))%nat with 0%nat by lia.
      simpl. apply Hlt. lia.
  - intros i s1 Hi HI.
    destruct (substitute_step m d cp i s1) as [Hs HI'];
      [lia | done | intros; by apply Hlt | done |].
    eauto.
  - eauto.
Qed.
End TriDiagonalFacts.

(** ** The loops of [CubicSpline2D] *)

Section Tabulate.
Context {A : Type}.

Lemma lookup_tabulate (f : nat → A) n i :
  i < n → (f <$> seq 0 n) !! i = Some (f i).
Proof. intros Hi. rewrite list_lookup_fmap, lookup_seq_lt by done. done. Qed.

Lemma length_tabulate (f : nat → A) n : length (f <$> seq 0 n) = n.
Proof. by rewrite length_fmap, length_seq. Qed.

Lemma tabulate_ext (f g : nat → A) n :
  (∀ j, j < n → f j = g j) → f <$> seq 0 n = g <$> seq 0 n.
Proof.
  intros Hfg. apply list_fmap_ext. intros i x Hx.
  apply lookup_seq in Hx as [-> Hi]. by apply Hfg.
Qed.

Lemma replicate_tabulate (z : A) n : replicate n z = (λ _, z) <$> seq 0 n.
Proof.
  apply list_eq. intros i. destruct (decide (i < n)) as [Hi | Hi].
  - rewrite lookup_tabulate by done. by apply lookup_replicate_2.
  - rewrite !lookup_ge_None_2; [done | |].
    + rewrite length_tabulate. lia.
    + rewrite length_replicate. lia.
Qed.

Lemma insert_tabulate (f g : nat → A) n i v :
  i < n → g i = v → (∀ j, j < n → j ≠ i → g j = f j) →
  <[i := v]> (f <$> seq 0 n) = g <$> seq 0 n.
Proof.
  intros Hi <- Hfg. apply list_eq. intros j.
  destruct (decide (j < n)) as [Hj | Hj].
  - rewrite lookup_tabulate by done. destruct (decide (j = i)) as [-> | Hne].
    + by rewrite list_lookup_insert_eq by (rewrite length_tabulate; lia).
    + rewrite list_lookup_insert_ne by done.
      rewrite lookup_tabulate by done. by rewrite Hfg.
  - rewrite !lookup_ge_None_2; [done | |].
    + rewrite length_tabulate. lia.
    + rewrite length_insert, length_tabulate. lia.
Qed.
End Tabulate.

Section CubicSpline2DFacts.
Context {F : Type} `{!Float64Ops F} `{!SdfPackage F}.
Local Open Scope F_scope.
Implicit Types (knot : list (V2 F)) (xx xy : list F).

Lemma lookup_knot_at knot i : i < length knot → knot !! i = Some (knot_at knot i).
Proof.
  intros Hi. destruct (lookup_lt_is_Some_2 knot i Hi) as [r Hr].
  unfold knot_at. by rewrite Hr.
Qed.

Lemma at_knot knot i : i < length knot → at_ knot i = Ok (knot_at knot i).
Proof. intros. by apply at_Ok, lookup_knot_at. Qed.

Lemma interior_loop knot :
  2 ≤ length knot →
  let n := length knot in
  for_up 1 (n - 2) (interior_row knot)
    (replicate n zero_V3, replicate n #0, replicate n #0)
  = Ok (interior_m (n - 1) <$> seq 0 n,
        interior_d V2_X knot (n - 1) <$> seq 0 n,
        interior_d V2_Y knot (n - 1) <$> seq 0 n).
Proof.
  intros Hn n.
  destruct (for_up_total (interior_I knot) (interior_row knot) 1 (n - 2)
              (replicate n zero_V3, replicate n #0, replicate n #0))
    as (st & Hrun & HI).
  - unfold interior_I. rewrite !replicate_tabulate. fold n.
    f_equal; [f_equal |]; apply tabulate_ext; intros j Hj;
      unfold interior_m, interior_d; by rewrite decide_False by lia.
  - intros i st Hi ->. fold n in Hi |- *. eexists. split; [| reflexivity].
    unfold interior_row.
    rewrite set_at_lt by (rewrite length_tabulate; lia). simpl.
    rewrite !at_knot by (fold n; lia). simpl.
    rewrite set_at_lt by (rewrite length_tabulate; lia). simpl.
    rewrite set_at_lt by (rewrite length_tabulate; lia). simpl.
    do 3 f_equal.
    + apply insert_tabulate; [lia | |].
      * unfold interior_m. by rewrite decide_True by lia.
      * intros j _ Hj. unfold interior_m.
        destruct (decide (1 ≤ j < S i)), (decide (1 ≤ j < i)); done || lia.
    + apply insert_tabulate; [lia | |].
      * unfold interior_d. by rewrite decide_True by lia.
      * intros j _ Hj. unfold interior_d.
        destruct (decide (1 ≤ j < S i)), (decide (1 ≤ j < i)); done || lia.
    + apply insert_tabulate; [lia | |].
      * unfold interior_d. by rewrite decide_True by lia.
      * intros j _ Hj. unfold interior_d.
        destruct (decide (1 ≤ j < S i)), (decide (1 ≤ j < i)); done || lia.
  - rewrite Hrun. replace (1 + (n - 2))%nat with (n - 1)%nat in HI by lia.
    by rewrite HI.
Qed.

Lemma end_rows n :
  2 ≤ n →
  <[(n - 1)%nat := mkV3 #1 #2 #0]>
    (<[0%nat := mkV3 #0 #2 #1]> (interior_m (n - 1) <$> seq 0 n))
  = spline_matrix n.
Proof.
  intros Hn. unfold spline_matrix.
  rewrite (insert_tabulate _
    (λ j, if decide (j = 0%nat) then mkV3 #0 #2 #1 else interior_m (n - 1) j));
    [| lia | done | by intros; rewrite decide_False].
  apply insert_tabulate; [lia | |].
  - unfold spline_row. rewrite decide_False by lia. by rewrite decide_True.
  - intros j Hj Hne. unfold spline_row, interior_m.
    destruct (decide (j = 0%nat)); [done |].
    rewrite decide_False by done. by rewrite decide_True by lia.
Qed.

Lemma end_rhs (co : V2 F → F) knot :
  2 ≤ length knot →
  let n := length knot in
  <[(n - 1)%nat := #3 * (co (knot_at knot (n - 1)) - co (knot_at knot (n - 2)))]>
    (<[0%nat := #3 * (co (knot_at knot 1) - co (knot_at knot 0))]>
       (interior_d co knot (n - 1) <$> seq 0 n))
  = spline_rhs co knot.
Proof.
  intros Hn n. unfold spline_rhs. fold n.
  rewrite (insert_tabulate _
    (λ j, if decide (j = 0%nat)
          then #3 * (co (knot_at knot 1) - co (knot_at knot 0))
          else interior_d co knot (n - 1) j));
    [| lia | done | by intros; rewrite decide_False].
  apply insert_tabulate; [lia | |].
  - unfold spline_rhs_at. fold n. rewrite decide_False by lia.
    by rewrite decide_True.
  - intros j Hj Hne. unfold spline_rhs_at, interior_d. fold n.
    destruct (decide (j = 0%nat)); [done |].
    rewrite decide_False by done. by rewrite decide_True by lia.
Qed.

Lemma CubicSpline2D_too_few knot :
  length knot < 2 → CubicSpline2D knot = Panic too_few_knots.
Proof.
  intros Hn. unfold CubicSpline2D.
  by destruct (Nat.ltb_spec (length knot) 2); [| lia].
Qed.

Lemma CubicSpline2D_prelude knot :
  2 ≤ length knot →
  let n := length knot in
  CubicSpline2D knot =
    xx ← TriDiagonal (spline_matrix n) (spline_rhs V2_X knot);
    xy ← TriDiagonal (spline_matrix n) (spline_rhs V2_Y knot);
    sp ← for_up 0 (n - 1) (make_segment knot xx xy) (replicate (n - 1) zero_spline);
    s0 ← at_ sp 0;
    box ← for_up 1 (n - 2) (extend_box sp) (CubicSpline.BoundingBox s0);
    Ok (mkSDF2 sp NR_MAXITERS box).
Proof.
  intros Hn n. subst n. unfold CubicSpline2D.
  destruct (Nat.ltb_spec (length knot) 2); [lia |].
  rewrite (interior_loop knot Hn). simpl.
  repeat (first [ rewrite set_at_lt by (rewrite ?length_insert, length_tabulate; lia)
                | rewrite at_knot by lia ]; simpl).
  rewrite (end_rows _ Hn).
  rewrite (end_rhs V2_X knot Hn), (end_rhs V2_Y knot Hn). done.
Qed.

Lemma segments_loop knot xx xy :
  length xx = length knot → length xy = length knot →
  let n := length knot in
  for_up 0 (n - 1) (make_segment knot xx xy) (replicate (n - 1) zero_spline)
  = Ok (segment_of knot xx xy <$> seq 0 (n - 1)).
Proof.
  intros Hxx Hxy n.
  destruct (for_up_total (segments_I knot xx xy) (make_segment knot xx xy) 0 (n - 1)
              (replicate (n - 1) zero_spline)) as (sp & Hrun & HI).
  - unfold segments_I. rewrite replicate_tabulate. fold n.
    apply tabulate_ext. intros j Hj. by rewrite decide_False by lia.
  - intros i sp Hi ->. fold n in Hi |- *. eexists. split; [| reflexivity].
    unfold make_segment.
    rewrite !at_knot by (fold n; lia). simpl.
    rewrite (proj2 (at_Ok xx i _) (lookup_get xx i ltac:(lia))). simpl.
    rewrite (proj2 (at_Ok xx (i + 1) _) (lookup_get xx (i + 1) ltac:(lia))). simpl.
    rewrite (proj2 (at_Ok xy i _) (lookup_get xy i ltac:(lia))). simpl.
    rewrite (proj2 (at_Ok xy (i + 1) _) (lookup_get xy (i + 1) ltac:(lia))). simpl.
    rewrite set_at_lt by (rewrite length_tabulate; lia). f_equal.
    apply insert_tabulate; [lia | |].
    + by rewrite decide_True by lia.
    + intros j _ Hj.
      destruct (decide (j < S i)), (decide (j < i)); done || lia.
  - rewrite Hrun. f_equal. rewrite HI. fold n.
    apply tabulate_ext. intros j Hj. by rewrite decide_True by lia.
Qed.

Lemma box_loop (sp : list (CubicSpline F)) lo count box0 :
  lo + count ≤ length sp →
  ∃ box, for_up lo count (extend_box sp) box0 = Ok box.
Proof.
  intros Hlen.
  destruct (for_up_total (λ _ _, True) (extend_box sp) lo count box0 I)
    as (box & Hrun & _); [| by exists box].
  intros i box Hi _. unfold extend_box.
  destruct (at_lt sp i) as (si & -> & _); [lia |]. simpl. eauto.
Qed.

(** What [CubicSpline2D] returns, when it returns. *)
Lemma CubicSpline2D_Ok_inv knot s :
  CubicSpline2D knot = Ok s →
  let n := length knot in
  2 ≤ n ∧
  ∃ xx xy,
    TriDiagonal (spline_matrix n) (spline_rhs V2_X knot) = Ok xx ∧
    TriDiagonal (spline_matrix n) (spline_rhs V2_Y knot) = Ok xy ∧
    spline s = segment_of knot xx xy <$> seq 0 (n - 1) ∧
    maxiters s = NR_MAXITERS.
Proof.
  intros Hrun n. subst n.
  destruct (decide (2 ≤ length knot)) as [Hn | Hn];
    [| rewrite CubicSpline2D_too_few in Hrun by lia; done].
  split; [done |].
  rewrite CubicSpline2D_prelude in Hrun by done.
  apply bind_Ok in Hrun as (xx & Hxx & Hrun).
  apply bind_Ok in Hrun as (xy & Hxy & Hrun).
  exists xx, xy. split_and!; [done | done | |].
  all: apply TriDiagonal_sound in Hxx as (_ & _ & _ & Hlx & _).
  all: apply TriDiagonal_sound in Hxy as (_ & _ & _ & Hly & _).
  all: unfold spline_matrix in Hlx, Hly; rewrite length_tabulate in Hlx, Hly.
  all: rewrite segments_loop in Hrun by done; simpl in Hrun.
  all: apply bind_Ok in Hrun as (s0 & _ & Hrun).
  all: apply bind_Ok in Hrun as (box & _ & Hrun).
  all: by injection Hrun as <-.
Qed.

(** [CubicSpline2D] returns when the two solves do. *)
Lemma CubicSpline2D_returns knot xx xy :
  let n := length knot in
  2 ≤ n →
  TriDiagonal (spline_matrix n) (spline_rhs V2_X knot) = Ok xx →
  TriDiagonal (spline_matrix n) (spline_rhs V2_Y knot) = Ok xy →
  ∃ s, CubicSpline2D knot = Ok s.
Proof.
  intros n Hn Hxx Hxy. subst n.
  rewrite CubicSpline2D_prelude by done. rewrite Hxx, Hxy. simpl.
  apply TriDiagonal_sound in Hxx as (_ & _ & _ & Hlx & _).
  apply TriDiagonal_sound in Hxy as (_ & _ & _ & Hly & _).
  unfold spline_matrix in Hlx, Hly; rewrite length_tabulate in Hlx, Hly.
  rewrite segments_loop by done. simpl.
  destruct (at_lt (segment_of knot xx xy <$> seq 0 (length knot - 1)) 0)
    as (s0 & -> & _); [rewrite length_tabulate; lia |]. simpl.
  destruct (box_loop (segment_of knot xx xy <$> seq 0 (length knot - 1)) 1
              (length knot - 2)
              (CubicSpline.BoundingBox s0)) as (box & ->);
    [rewrite length_tabulate; lia |].
  simpl. eauto.
Qed.
End CubicSpline2DFacts.

(** ** Exact arithmetic *)

Section RealFacts.
Local Open Scope R_scope.

Lemma Rltb_true x y : Rltb x y = true ↔ x < y.
Proof. unfold Rltb. destruct (Rlt_dec x y); split; (done || lra). Qed.

Lemma Rltb_false x y : Rltb x y = false ↔ y <= x.
Proof. unfold Rltb. destruct (Rlt_dec x y); split; (done || lra). Qed.

Lemma Reqb_true x y : Reqb x y = true ↔ x = y.
Proof. unfold Reqb. destruct (Req_dec_T x y); split; (done || lra). Qed.

Lemma Reqb_false x y : Reqb x y = false ↔ x ≠ y.
Proof. unfold Reqb. destruct (Req_dec_T x y); split; (done || lra). Qed.

Lemma Rabs_le_iff x e : Rabs x <= e ↔ - e <= x <= e.
Proof. unfold Rabs. destruct (Rcase_abs x); lra. Qed.

Lemma Abs_Rabs (x : R) : Abs x = Rabs x.
Proof.
  unfold Abs. unfold_R. unfold Rltb, Rabs.
  destruct (Rlt_dec x 0), (Rcase_abs x); lra.
Qed.

(** [ZeroSmall] either keeps its argument or replaces an argument below
    the threshold by zero. *)
Lemma ZeroSmall_cases (x y e : R) :
  (ZeroSmall x y e = 0 ∧ Rabs x < e * y) ∨ (ZeroSmall x y e = x ∧ e * y <= Rabs x).
Proof.
  unfold ZeroSmall. rewrite Abs_Rabs. unfold_R. unfold Rltb.
  destruct (Rlt_dec (Rabs x) (e * y)); [left | right]; split; (done || lra).
Qed.

Lemma ZeroSmall_zero (y e : R) : ZeroSmall 0 y e = 0.
Proof. destruct (ZeroSmall_cases 0 y e) as [[-> _] | [-> _]]; done. Qed.

Lemma ZeroSmall_near (x y e : R) :
  0 <= e * y → - (e * y) <= ZeroSmall x y e - x <= e * y.
Proof.
  intros He. destruct (ZeroSmall_cases x y e) as [[-> Hx] | [-> _]]; [| lra].
  apply Rabs_def2 in Hx. lra.
Qed.

Lemma Set_sum_nonneg `{!SdfPackage R} (y0 y1 D0 D1 : R) :
  0 <= CubicPolynomial.Set_sum y0 y1 D0 D1.
Proof.
  unfold CubicPolynomial.Set_sum. rewrite !Abs_Rabs. unfold_R.
  pose proof Rabs_pos. repeat apply Rplus_le_le_0_compat; auto.
Qed.

(** The coefficients [Set_] stores, against the Hermite coefficients. *)
Lemma Set_near `{!SdfPackage R} (y0 y1 D0 D1 : R) :
  0 <= EPSILON →
  let p := CubicPolynomial.Set_ y0 y1 D0 D1 in
  let e := EPSILON * CubicPolynomial.Set_sum y0 y1 D0 D1 in
  - e <= a p - y0 <= e ∧
  - e <= b p - D0 <= e ∧
  - e <= c p - (3 * (y1 - y0) - 2 * D0 - D1) <= e ∧
  - e <= d p - (2 * (y0 - y1) + D0 + D1) <= e.
Proof.
  intros He p e.
  assert (0 <= e) as He'.
  { apply Rmult_le_pos; [done | apply Set_sum_nonneg]. }
  subst p e. unfold CubicPolynomial.Set_, CubicPolynomial.Set_sum in *.
  cbn [a b c d].
  split_and!; apply ZeroSmall_near; exact He'.
Qed.

(** In exact arithmetic: the values and derivatives of the fitted
    polynomial at 0 and 1 are the arguments of [Set], up to the snapping.
    In binary64 see [Set_fits] and [Set_overflow]. *)
Lemma Set_fit `{!SdfPackage R} (y0 y1 D0 D1 : R) :
  0 <= EPSILON →
  let p := CubicPolynomial.Set_ y0 y1 D0 D1 in
  let e := EPSILON * CubicPolynomial.Set_sum y0 y1 D0 D1 in
  - e <= CubicPolynomial.f0 p 0 - y0 <= e ∧
  - (4 * e) <= CubicPolynomial.f0 p 1 - y1 <= 4 * e ∧
  - e <= CubicPolynomial.f1 p 0 - D0 <= e ∧
  - (6 * e) <= CubicPolynomial.f1 p 1 - D1 <= 6 * e.
Proof.
  intros He p e.
  destruct (Set_near y0 y1 D0 D1 He) as (Ha & Hb & Hc & Hd).
  fold p e in Ha, Hb, Hc, Hd.
  unfold CubicPolynomial.f0, CubicPolynomial.f1. unfold_R. lra.
Qed.

End RealFacts.

(** ** The solution of the tridiagonal system *)

Section TriDiagonalReal.
Local Open Scope R_scope.
Implicit Types (m : list (V3 R)) (d x : list R).

(** In exact arithmetic the vector [TriDiagonal] returns solves the
    system.  In binary64 it need not: see [TriDiagonal_not_solution]. *)
Lemma TriDiagonal_solves m d x :
  TriDiagonal m d = Ok x → ∀ i, (i < length m)%nat → mat_vec m x i = get d i.
Proof.
  intros Hrun i Hi.
  apply TriDiagonal_sound in Hrun as (Hd & Hn & (_ & _ & HY & Hden) & Hx & Hsol).
  assert (∀ j, (j < length m)%nat → get x j = backsub m d j (length m - 1 - j))
    as Hget by (intros j Hj; apply get_lookup, Hsol, Hj).
  assert (∀ j, (S j < length m)%nat →
            get x j = dprime m d j - cprime m j * get x (S j)) as Hrec.
  { intros j Hj. rewrite !Hget by lia.
    by replace (length m - 1 - j)%nat with (S (length m - 1 - S j)) by lia. }
  assert (get x (length m - 1) = dprime m d (length m - 1)) as Hlast.
  { rewrite Hget by lia.
    by replace (length m - 1 - (length m - 1))%nat with 0%nat by lia. }
  assert (∀ j, (S j < length m)%nat →
            V3_Y (row m (S j)) - V3_X (row m (S j)) * cprime m j ≠ 0) as Hden'.
  { intros j Hj. apply Reqb_false, (Hden (S j)). lia. }
  clear Hden Hsol Hget. unfold_R. apply Reqb_false in HY.
  unfold mat_vec. unfold_R.
  destruct i as [|j].
  - rewrite decide_True by done.
    destruct (decide (0%nat = (length m - 1)%nat)) as [Hone | Hmore].
    + rewrite <- Hone in Hlast. rewrite Hlast. simpl. unfold_R. by field.
    + rewrite (Hrec 0%nat) by lia. simpl. unfold_R.
      generalize (get x 1). intros x1. by field.
  - rewrite decide_False by done. replace (S j - 1)%nat with j by lia.
    specialize (Hden' j Hi). rewrite (Hrec j) by done.
    destruct (decide (S j = (length m - 1)%nat)) as [Hend | Hmid].
    + rewrite <- Hend in Hlast. rewrite Hlast. cbn [dprime denom]. unfold_R.
      generalize dependent (cprime m j). intros. by field.
    + rewrite (Hrec (S j)) by lia.
      replace (S j + 1)%nat with (S (S j)) by lia.
      generalize (get x (S (S j))). intros x2.
      cbn [dprime denom cprime]. unfold_R.
      generalize dependent (cprime m j). intros. by field.
Qed.

End TriDiagonalReal.

(** ** The spline matrix *)

Section SplineReal.
Context `{!SdfPackage R}.
Local Open Scope R_scope.
Implicit Types (knot : list (V2 R)) (xx xy : list R).

Lemma row_spline_matrix n i :
  (i < n)%nat → row (spline_matrix n) i = spline_row (F:=R) n i.
Proof. intros Hi. apply row_lookup. by apply lookup_tabulate. Qed.

Lemma get_spline_rhs co knot i :
  (i < length knot)%nat → get (spline_rhs co knot) i = spline_rhs_at co knot i.
Proof. intros Hi. apply get_lookup. by apply lookup_tabulate. Qed.

Lemma spline_row_first n : spline_row (F:=R) n 0 = mkV3 0 2 1.
Proof. unfold spline_row. by rewrite decide_True. Qed.

Lemma spline_row_last n : (2 ≤ n)%nat → spline_row (F:=R) n (n - 1) = mkV3 1 2 0.
Proof.
  intros. unfold spline_row. rewrite decide_False by lia. by rewrite decide_True.
Qed.

Lemma spline_row_interior n i :
  (1 ≤ i < n - 1)%nat → spline_row (F:=R) n i = mkV3 1 4 1.
Proof. intros. unfold spline_row. by rewrite !decide_False by lia. Qed.

(** The elimination keeps [cp] in (0, 1/2] on the spline matrix, so no
    denominator vanishes. *)
Lemma spline_matrix_cprime n i :
  (2 ≤ n)%nat → (i < n - 1)%nat → 0 < cprime (spline_matrix n) i <= 1 / 2.
Proof.
  intros Hn. induction i as [|j IH]; intros Hi.
  - cbn [cprime]. rewrite row_spline_matrix, spline_row_first by lia.
    cbn [V3_Y V3_Z]. unfold_R. lra.
  - specialize (IH ltac:(lia)). cbn [cprime].
    rewrite row_spline_matrix, spline_row_interior by lia.
    cbn [V3_X V3_Y V3_Z]. unfold_R.
    generalize dependent (cprime (spline_matrix (F:=R) n) j). intros cj Hcj.
    assert (0 < 4 - 1 * cj) as Hpos by lra.
    unfold Rdiv. rewrite Rmult_1_l. split.
    + by apply Rinv_0_lt_compat.
    + apply Rle_trans with (/ 2); [apply Rinv_le_contravar |]; lra.
Qed.

Lemma spline_matrix_accepts n : (2 ≤ n)%nat → accepts (spline_matrix (F:=R) n).
Proof.
  intros Hn. unfold accepts, spline_matrix. rewrite length_tabulate.
  fold (spline_matrix (F:=R) n).
  rewrite !row_spline_matrix, spline_row_first, spline_row_last by lia.
  cbn [V3_X V3_Y V3_Z]. unfold_R.
  split_and!; [by apply Reqb_true | by apply Reqb_true | apply Reqb_false; lra |].
  intros [|j] Hi; [lia |]. apply Reqb_false. cbn [denom].
  pose proof (spline_matrix_cprime n j Hn ltac:(lia)) as Hcj.
  rewrite row_spline_matrix by lia.
  destruct (decide (S j = (n - 1)%nat)) as [-> | Hmid].
  - rewrite spline_row_last by lia. cbn [V3_X V3_Y]. unfold_R. lra.
  - rewrite spline_row_interior by lia. cbn [V3_X V3_Y]. unfold_R. lra.
Qed.

(** In exact arithmetic every list of at least two knots is accepted. *)
Lemma CubicSpline2D_total knot :
  (2 ≤ length knot)%nat → ∃ s, CubicSpline2D knot = Ok s.
Proof.
  intros Hn.
  destruct (TriDiagonal_complete (spline_matrix (length knot)) (spline_rhs V2_X knot))
    as [xx Hxx]; [| | by apply spline_matrix_accepts |].
  1, 2: unfold spline_matrix, spline_rhs; rewrite !length_tabulate; (done || lia).
  destruct (TriDiagonal_complete (spline_matrix (length knot)) (spline_rhs V2_Y knot))
    as [xy Hxy]; [| | by apply spline_matrix_accepts |].
  1, 2: unfold spline_matrix, spline_rhs; rewrite !length_tabulate; (done || lia).
  by apply (CubicSpline2D_returns knot xx xy).
Qed.

(** In exact arithmetic [CubicSpline2D] returns for every list of at
    least two knots: on the matrix it builds the elimination never meets
    a zero denominator. *)
Theorem CubicSpline2D_accepts (knot : list (V2 R)) :
  (2 ≤ length knot)%nat →
  ∃ s, CubicSpline2D knot = Ok s ∧ length (spline s) = (length knot - 1)%nat.
Proof.
  intros Hn. destruct (CubicSpline2D_total knot Hn) as [s Hs]. exists s.
  split; [done |].
  apply CubicSpline2D_Ok_inv in Hs as (_ & xx & xy & _ & _ & -> & _).
  by rewrite length_tabulate.
Qed.

Lemma coeff_sum_Set (y0 y1 D0 D1 : R) :
  0 <= EPSILON →
  (1 - 4 * EPSILON) * CubicPolynomial.Set_sum y0 y1 D0 D1
  <= coeff_sum (CubicPolynomial.Set_ y0 y1 D0 D1).
Proof.
  intros He. pose proof (Set_sum_nonneg y0 y1 D0 D1) as Hs. revert Hs.
  unfold coeff_sum, CubicPolynomial.Set_, CubicPolynomial.Set_sum.
  cbn [a b c d]. rewrite !Abs_Rabs. unfold_R.
  set (S := Rabs y0 + Rabs D0 + _ + _). intros Hs.
  assert (∀ x, Rabs x - EPSILON * S <= Rabs (ZeroSmall x S EPSILON)) as Hx.
  { intros x.
    destruct (ZeroSmall_cases x S EPSILON) as [[-> Hlt] | [-> _]].
    - rewrite Rabs_R0. lra.
    - assert (0 <= EPSILON * S) by (by apply Rmult_le_pos). lra. }
  pose proof (Hx y0). pose proof (Hx D0).
  pose proof (Hx (3 * (y1 - y0) - 2 * D0 - D1)).
  pose proof (Hx (2 * (y0 - y1) + D0 + D1)).
  assert (S = Rabs y0 + Rabs D0 + Rabs (3 * (y1 - y0) - 2 * D0 - D1)
              + Rabs (2 * (y0 - y1) + D0 + D1)) as HS by reflexivity.
  clearbody S. lra.
Qed.
End SplineReal.

(** ** Continuity and the natural boundary *)

Section Continuity.
Context `{!SdfPackage R}.
Local Open Scope R_scope.
Implicit Types (knot : list (V2 R)) (xx xy : list R).

Lemma coeff_sum_nonneg (p : CubicPolynomial R) : 0 <= coeff_sum p.
Proof.
  unfold coeff_sum. rewrite !Abs_Rabs. unfold_R.
  pose proof Rabs_pos. repeat apply Rplus_le_le_0_compat; auto.
Qed.

(** A bound in the sum [Set_] compares with, restated in the sum of the
    coefficients it stores. *)
Lemma stored_bound (e k delta S1 S2 c1 c2 : R) :
  0 <= e → 0 <= k → 0 <= delta →
  delta <= k * (e * S1) + e * S2 →
  (1 - 4 * e) * S1 <= c1 → (1 - 4 * e) * S2 <= c2 → 0 <= c1 → 0 <= c2 →
  (1 - 4 * e) * delta <= e * (k * c1 + c2).
Proof.
  intros He Hk Hd Hb H1 H2 Hc1 Hc2.
  destruct (Rle_dec 0 (1 - 4 * e)) as [Hpos | Hneg].
  - apply Rle_trans with ((1 - 4 * e) * (k * (e * S1) + e * S2)).
    + by apply Rmult_le_compat_l.
    + replace ((1 - 4 * e) * (k * (e * S1) + e * S2))
        with (e * (k * ((1 - 4 * e) * S1) + (1 - 4 * e) * S2)) by ring.
      apply Rmult_le_compat_l; [done |].
      apply Rplus_le_compat; [| done]. by apply Rmult_le_compat_l.
  - apply Rle_trans with 0.
    + assert (0 <= (4 * e - 1) * delta) by (apply Rmult_le_pos; lra). lra.
    + apply Rmult_le_pos; [done |].
      apply Rplus_le_le_0_compat; [| done]. by apply Rmult_le_pos.
Qed.

Lemma lookup_segment knot s xx xy i seg :
  spline s = segment_of knot xx xy <$> seq 0 (length knot - 1) →
  spline s !! i = Some seg → seg = segment_of knot xx xy i.
Proof.
  intros -> Hseg. pose proof (lookup_lt_Some _ _ _ Hseg) as Hi.
  rewrite length_tabulate in Hi. rewrite lookup_tabulate in Hseg by done.
  by injection Hseg.
Qed.

(** One coordinate, in exact arithmetic: the polynomials of two adjoining segments are
    fitted to the same derivative at the knot they share. *)
Lemma Set_shared_derivative (y0 y1 y2 D0 D1 D2 : R) :
  0 <= EPSILON →
  let p1 := CubicPolynomial.Set_ y0 y1 D0 D1 in
  let p2 := CubicPolynomial.Set_ y1 y2 D1 D2 in
  (1 - 4 * EPSILON) * Rabs (CubicPolynomial.f1 p1 1 - CubicPolynomial.f1 p2 0)
  <= EPSILON * (6 * coeff_sum p1 + coeff_sum p2).
Proof.
  intros He p1 p2.
  destruct (Set_fit y0 y1 D0 D1 He) as (_ & _ & _ & H1).
  destruct (Set_fit y1 y2 D1 D2 He) as (_ & _ & H2 & _).
  fold p1 in H1. fold p2 in H2.
  apply (stored_bound _ _ _ (CubicPolynomial.Set_sum y0 y1 D0 D1)
           (CubicPolynomial.Set_sum y1 y2 D1 D2)).
  - done.
  - lra.
  - apply Rabs_pos.
  - apply Rabs_le_iff. lra.
  - by apply coeff_sum_Set.
  - by apply coeff_sum_Set.
  - apply coeff_sum_nonneg.
  - apply coeff_sum_nonneg.
Qed.

(** In exact arithmetic: at an interior knot the first derivative at the
    end of the segment before it and at the start of the segment after it
    agree, in each coordinate, up to [EPSILON / (1 - 4 EPSILON)] times a
    sum of the magnitudes of the coefficients of the two segments; they
    are equal when nothing is snapped ([EPSILON = 0]).  In binary64 the
    construction rounds and can overflow: see [first_derivative_shared]
    and [first_derivative_overflow]. *)
Lemma first_derivative_continuous_exact knot s (i : nat) s1 s2 :
  0 <= EPSILON →
  CubicSpline2D knot = Ok s →
  (0 < i < length knot - 1)%nat →
  spline s !! (i - 1)%nat = Some s1 →
  spline s !! i = Some s2 →
  let before := CubicSpline.f1 s1 1 in
  let after := CubicSpline.f1 s2 0 in
  (1 - 4 * EPSILON) * Rabs (V2_X before - V2_X after)
    <= EPSILON * (6 * coeff_sum (px s1) + coeff_sum (px s2)) ∧
  (1 - 4 * EPSILON) * Rabs (V2_Y before - V2_Y after)
    <= EPSILON * (6 * coeff_sum (py s1) + coeff_sum (py s2)).
Proof.
  intros He Hs Hi H1 H2.
  apply CubicSpline2D_Ok_inv in Hs as (_ & xx & xy & _ & _ & Hsp & _).
  apply (lookup_segment _ _ _ _ _ _ Hsp) in H1, H2. subst s1 s2.
  unfold segment_of, CubicSpline.f1. cbn [px py V2_X V2_Y].
  replace (i - 1 + 1)%nat with i by lia.
  split; apply Set_shared_derivative; done.
Qed.

Lemma length_spline_matrix n : length (spline_matrix (F:=R) n) = n.
Proof. apply length_tabulate. Qed.

(** The first and the last row of the system [CubicSpline2D] solves. *)
Lemma spline_first_row co knot xx :
  (2 ≤ length knot)%nat →
  TriDiagonal (spline_matrix (length knot)) (spline_rhs co knot) = Ok xx →
  2 * get xx 0 + get xx 1 = 3 * (co (knot_at knot 1) - co (knot_at knot 0)).
Proof.
  intros Hn Hxx.
  pose proof (TriDiagonal_solves _ _ _ Hxx 0%nat) as Hrow.
  unfold mat_vec in Hrow. rewrite !length_spline_matrix in Hrow.
  specialize (Hrow ltac:(lia)).
  rewrite get_spline_rhs in Hrow by lia.
  rewrite row_spline_matrix, spline_row_first in Hrow by lia.
  rewrite decide_True, decide_False in Hrow by lia.
  unfold spline_rhs_at in Hrow. rewrite decide_True in Hrow by done.
  cbn [V3_X V3_Y V3_Z] in Hrow. unfold_R.
  replace (0 + 1)%nat with 1%nat in Hrow by done. lra.
Qed.

Lemma spline_last_row co knot xx :
  (2 ≤ length knot)%nat →
  TriDiagonal (spline_matrix (length knot)) (spline_rhs co knot) = Ok xx →
  get xx (length knot - 2) + 2 * get xx (length knot - 1)
  = 3 * (co (knot_at knot (length knot - 1)) - co (knot_at knot (length knot - 2))).
Proof.
  intros Hn Hxx.
  pose proof (TriDiagonal_solves _ _ _ Hxx (length knot - 1)%nat) as Hrow.
  unfold mat_vec in Hrow. rewrite !length_spline_matrix in Hrow.
  specialize (Hrow ltac:(lia)).
  rewrite get_spline_rhs in Hrow by lia.
  rewrite row_spline_matrix, spline_row_last in Hrow by lia.
  rewrite decide_False, decide_True in Hrow by lia.
  unfold spline_rhs_at in Hrow.
  rewrite decide_False, decide_True in Hrow by lia.
  cbn [V3_X V3_Y V3_Z] in Hrow. unfold_R.
  replace (length knot - 1 - 1)%nat with (length knot - 2)%nat in Hrow by lia.
  lra.
Qed.

(** One coordinate of the natural boundary, in exact arithmetic. *)
Lemma Set_f2_start (y0 y1 D0 D1 : R) :
  2 * D0 + D1 = 3 * (y1 - y0) →
  CubicPolynomial.f2 (CubicPolynomial.Set_ y0 y1 D0 D1) 0 = 0.
Proof.
  intros Hrow. unfold CubicPolynomial.f2, CubicPolynomial.Set_.
  cbn [c d]. unfold_R.
  replace (3 * (y1 - y0) - 2 * D0 - D1) with 0 by lra.
  rewrite ZeroSmall_zero. lra.
Qed.

Lemma Set_f2_end (y0 y1 D0 D1 : R) :
  0 <= EPSILON →
  D0 + 2 * D1 = 3 * (y1 - y0) →
  let p := CubicPolynomial.Set_ y0 y1 D0 D1 in
  (1 - 4 * EPSILON) * Rabs (CubicPolynomial.f2 p 1) <= EPSILON * (8 * coeff_sum p).
Proof.
  intros He Hrow p.
  destruct (Set_near y0 y1 D0 D1 He) as (_ & _ & Hc & Hd). fold p in Hc, Hd.
  replace (8 * coeff_sum p) with (8 * coeff_sum p + 0) by lra.
  apply (stored_bound _ _ _ (CubicPolynomial.Set_sum y0 y1 D0 D1) 0).
  - done.
  - lra.
  - apply Rabs_pos.
  - unfold CubicPolynomial.f2. unfold_R. apply Rabs_le_iff. lra.
  - by apply coeff_sum_Set.
  - lra.
  - apply coeff_sum_nonneg.
  - lra.
Qed.

(** In exact arithmetic: the second derivative of the first segment at 0
    is zero, and the second derivative of the last segment at 1 is zero up
    to [8 EPSILON / (1 - 4 EPSILON)] times the sum of the magnitudes of
    its coefficients, in each coordinate: rows [(0,2,1)] and [(1,2,0)] of
    the system make the Hermite coefficients cancel.  In binary64 see
    [natural_boundary_imposed] and [natural_boundary_overflow]. *)
Lemma natural_boundary_exact knot s first last :
  0 <= EPSILON →
  CubicSpline2D knot = Ok s →
  spline s !! 0%nat = Some first →
  spline s !! (length knot - 2)%nat = Some last →
  CubicSpline.f2 first 0 = mkV2 0 0 ∧
  (1 - 4 * EPSILON) * Rabs (V2_X (CubicSpline.f2 last 1))
    <= EPSILON * (8 * coeff_sum (px last)) ∧
  (1 - 4 * EPSILON) * Rabs (V2_Y (CubicSpline.f2 last 1))
    <= EPSILON * (8 * coeff_sum (py last)).
Proof.
  intros He Hs H1 H2.
  apply CubicSpline2D_Ok_inv in Hs as (Hn & xx & xy & Hxx & Hxy & Hsp & _).
  apply (lookup_segment _ _ _ _ _ _ Hsp) in H1, H2. subst first last.
  pose proof (spline_first_row V2_X knot xx Hn Hxx).
  pose proof (spline_first_row V2_Y knot xy Hn Hxy).
  pose proof (spline_last_row V2_X knot xx Hn Hxx).
  pose proof (spline_last_row V2_Y knot xy Hn Hxy).
  unfold segment_of, CubicSpline.f2. cbn [px py V2_X V2_Y].
  replace (length knot - 2 + 1)%nat with (length knot - 1)%nat by lia.
  replace (0 + 1)%nat with 1%nat by done.
  split_and!.
  - f_equal; by apply Set_f2_start.
  - by apply Set_f2_end.
  - by apply Set_f2_end.
Qed.
End Continuity.

(** ** Construction and the start of [Evaluate] *)

Section Generic.
Context {F : Type} `{!Float64Ops F} `{!SdfPackage F}.

(** C8: [CubicSpline2D] panics on fewer than two knots, and a spline set
    it returns for [N] knots ([N >= 2] then) has [N - 1] segments. *)
Theorem CubicSpline2D_segments (knot : list (V2 F)) :
  (length knot < 2 → CubicSpline2D knot = Panic too_few_knots) ∧
  (∀ s, CubicSpline2D knot = Ok s →
        2 ≤ length knot ∧ length (spline s) = length knot - 1).
Proof.
  split; [apply CubicSpline2D_too_few |].
  intros s Hs. apply CubicSpline2D_Ok_inv in Hs as (Hn & xx & xy & _ & _ & -> & _).
  by rewrite length_tabulate.
Qed.

(** C10: [TriDiagonal] panics when the right-hand side does not have as
    many entries as the matrix has rows. *)
Theorem TriDiagonal_size_mismatch (m : list (V3 F)) (d : list F) :
  length d ≠ length m → TriDiagonal m d = Panic bad_sizes.
Proof. apply TriDiagonal_bad_sizes. Qed.

(** In every arithmetic, binary64 included, [TriDiagonal] returns exactly
    when the right-hand side has as many entries as the matrix has rows,
    there is a row, and the four checks on the matrix pass; the vector it
    returns has one entry per row. *)
Theorem TriDiagonal_returns_iff (m : list (V3 F)) (d : list F) :
  ((∃ x, TriDiagonal m d = Ok x) ↔
   length d = length m ∧ 0 < length m ∧ accepts m) ∧
  (∀ x, TriDiagonal m d = Ok x → length x = length m).
Proof.
  split; [split |].
  - intros [x Hrun]. by apply TriDiagonal_sound in Hrun as (? & ? & ? & _).
  - intros (Hd & Hn & Hacc). by apply TriDiagonal_complete.
  - intros x Hrun. by apply TriDiagonal_sound in Hrun as (_ & _ & _ & ? & _).
Qed.
End Generic.

Section EvaluateReal.
Context `{!SdfPackage R}.
Local Open Scope R_scope.

Lemma Rtrunc_IZR (z : Z) : (0 <= z)%Z → Rtrunc (IZR z) = z.
Proof.
  intros Hz. unfold Rtrunc. apply IZR_le in Hz.
  destruct (Rlt_dec (IZR z) 0); [lra | apply ZfloorZ].
Qed.

Lemma Rtrunc_half : Rtrunc (9 / 2) = 4%Z.
Proof.
  unfold Rtrunc. destruct (Rlt_dec (9 / 2) 0); [lra |].
  apply Zfloor_eq. lra.
Qed.

Lemma at_int_nat {A} (l : list A) (i : nat) : at_int l (Z.of_nat i) = at_ l i.
Proof.
  unfold at_int. destruct (Z.ltb_spec (Z.of_nat i) 0); [lia |].
  by rewrite Nat2Z.id.
Qed.

(** Where [Find] puts the global parameter 9/2. *)
Lemma Find_start_long (s : CubicSplineSDF2 R) cs :
  spline s !! 4%nat = Some cs → Find s (9 / 2) = Ok (cs, 1 / 2).
Proof.
  intros Hcs. pose proof (lookup_lt_Some _ _ _ Hcs) as Hlen.
  unfold Find, Clamp. unfold_R.
  assert (5 <= IZR (Z.of_nat (length (spline s)))) as Hn by (apply IZR_le; lia).
  rewrite (proj2 (Rltb_false _ _)) by lra.
  rewrite (proj2 (Rltb_false _ _)) by lra.
  rewrite Rtrunc_half.
  destruct (Z.eqb_spec 4 (Z.of_nat (length (spline s)))); [lia |].
  change (at_int (spline s) 4) with (at_ (spline s) 4).
  rewrite (proj2 (at_Ok _ _ _) Hcs). simpl. do 2 f_equal. lra.
Qed.

Lemma Find_start_short (s : CubicSplineSDF2 R) cs :
  (length (spline s) ≤ 4)%nat →
  spline s !! (length (spline s) - 1)%nat = Some cs →
  Find s (9 / 2) = Ok (cs, 1).
Proof.
  intros Hlen Hcs. pose proof (lookup_lt_Some _ _ _ Hcs) as Hpos.
  unfold Find, Clamp. unfold_R.
  assert (IZR (Z.of_nat (length (spline s))) <= 4) as Hn by (apply IZR_le; lia).
  rewrite (proj2 (Rltb_false _ _)) by lra.
  rewrite (proj2 (Rltb_true _ _)) by lra.
  rewrite Rtrunc_IZR by lia. rewrite Z.eqb_refl.
  replace (Z.of_nat (length (spline s)) - 1)%Z
    with (Z.of_nat (length (spline s) - 1)) by lia.
  rewrite at_int_nat, (proj2 (at_Ok _ _ _) Hcs). done.
Qed.

(** C2, as the code has it: [Evaluate] starts its iteration from what
    [Find] returns for the global parameter 9/2.  That is local parameter
    1/2 on the segment of index 4 when the set has at least five segments;
    with one to four segments [Find] clamps, and the iteration starts at
    local parameter 1 on the last segment. *)
Theorem Evaluate_start (s : CubicSplineSDF2 R) (p : V2 R) :
  Evaluate s p = (st ← Find s (9 / 2); Evaluate_after s p st) ∧
  (∀ cs, spline s !! 4%nat = Some cs → Find s (9 / 2) = Ok (cs, 1 / 2)) ∧
  (∀ cs, (length (spline s) ≤ 4)%nat →
         spline s !! (length (spline s) - 1)%nat = Some cs →
         Find s (9 / 2) = Ok (cs, 1)).
Proof.
  split_and!.
  - unfold Evaluate, Evaluate_after, Evaluate_n. unfold_R.
    destruct (Find s (9 / 2)) as [st |]; [| done]. simpl.
    destruct (Evaluate_loop _ _ _ _) as [[cs t] |]; done.
  - apply Find_start_long.
  - apply Find_start_short.
Qed.

End EvaluateReal.

(** ** binary64 *)

Section FloatFacts.
Local Open Scope float_scope.

Lemma binary_round_aux_sign mx ex lx :
  let r := binary_round_aux prec emax false mx ex lx in
  r = S754_nan ∨ r = S754_zero false ∨ r = S754_infinity false ∨
  ∃ m e, r = S754_finite false m e.
Proof.
  unfold binary_round_aux.
  destruct (shr_fexp prec emax mx ex lx) as [mrs' e'].
  destruct (shr_fexp prec emax _ e' loc_Exact) as [mrs'' e''].
  destruct (shr_m mrs''); [by right; left | | by left].
  destruct (e'' <=? emax - prec)%Z; [| by right; right; left].
  right; right; right. eauto.
Qed.

(** [math.Sqrt] returns NaN or a number that is not below zero. *)
Lemma sqrt_nonneg (x : float) :
  is_nan (sqrt x) = false → (0 <=? sqrt x) = true.
Proof.
  unfold is_nan. rewrite FloatAxioms.eqb_spec, FloatAxioms.leb_spec, FloatAxioms.sqrt_spec.
  change (Prim2SF 0) with (S754_zero false).
  unfold SF64sqrt, SFsqrt.
  destruct (Prim2SF x) as [s | [|] | | [|] m e]; try done.
  destruct (SFsqrt_core_binary prec emax (Z.pos m) e) as [[mz ez] lz].
  destruct (binary_round_aux_sign mz ez lz) as [-> | [-> | [-> | (m' & e' & ->)]]];
    done.
Qed.
End FloatFacts.

Section FloatEvaluate.
Context `{!SdfPackage float}.
Local Open Scope float_scope.

(** C9, as the code has it: a distance [Evaluate] returns is NaN or not
    below zero.  ([Evaluate] can also panic, and does so where a Newton
    step divides zero by zero: see the runs on [knots_halt] and
    [knots_point] below.) *)
Theorem Evaluate_nonneg (s : CubicSplineSDF2 float) (p : V2 float) (dist : float) :
  Evaluate s p = Ok dist → is_nan dist = false → (0 <=? dist) = true.
Proof.
  unfold Evaluate. intros Hrun.
  apply bind_Ok in Hrun as (st & _ & Hrun).
  apply bind_Ok in Hrun as ([cs t] & _ & Hrun).
  apply bind_Ok in Hrun as (d0 & _ & Hrun).
  injection Hrun as <-. apply sqrt_nonneg.
Qed.
End FloatEvaluate.

(** ** Concrete runs *)

Section FloatRuns.
Local Open Scope float_scope.

Lemma built_line3 : CubicSpline2D knots_line3 = Ok (built knots_line3).
Proof. vm_compute. reflexivity. Qed.

Lemma built_line12 : CubicSpline2D knots_line12 = Ok (built knots_line12).
Proof. vm_compute. reflexivity. Qed.


Lemma built_halt : CubicSpline2D knots_halt = Ok (built knots_halt).
Proof. vm_compute. reflexivity. Qed.

(** C1, on the code: the test for the last segment compares the index
    with 8.  On the last segment of a set of two, a Newton step beyond 1
    does not stop the iteration; on segment 8 of a set of eleven it stops
    it at the end of that segment, and [Evaluate] returns 0.25 for a point
    the curve passes within 0.04 of, on segment 9. *)
Theorem Evaluate_body_last_segment_test :
  let s := built knots_line3 in
  let p := mkV2 5 0 in
  let s' := built knots_line12 in
  let p' := mkV2 8.75 0 in
  (length (spline s) = 2%nat ∧
   ∃ cs, Find s (#9 / #2)%F64 = Ok (cs, 1) ∧ idx cs = 1%Z ∧
         (CubicSpline.NR_Iterate cs 1 p >? 1)%F64 = true ∧
         Evaluate_body s p (cs, 1) = Ok (Continue, (cs, 1))) ∧
  (length (spline s') = 11%nat ∧
   ∃ cs t, (Find s' (#9 / #2)%F64 ≫= Evaluate_body s' p') = Ok (Continue, (cs, t)) ∧
           idx cs = 8%Z ∧
           (CubicSpline.NR_Iterate cs t p' >? 1)%F64 = true ∧
           Evaluate_body s' p' (cs, t) = Ok (Break, (cs, 1)) ∧
           Evaluate s' p' = Ok 0.25 ∧
           ∃ d0, D0 s' 9.1875 p' = Ok d0 ∧ (d0 <? 0.0009765625) = true).
Proof.
  cbv zeta. split.
  - split; [by vm_compute |]. eexists. split_and!.
    + vm_compute. reflexivity.
    + by vm_compute.
    + by vm_compute.
    + by vm_compute.
  - split; [by vm_compute |]. eexists _, _. split_and!.
    + vm_compute. reflexivity.
    + by vm_compute.
    + by vm_compute.
    + by vm_compute.
    + by vm_compute.
    + eexists. split; [vm_compute; reflexivity | by vm_compute].
Qed.

(** C2 fails as stated: for the set of two segments built from three
    knots the iteration starts at local parameter 1, not 1/2. *)
Lemma Evaluate_start_not_half :
  ¬ (∀ (knot : list (V2 float)) s, CubicSpline2D knot = Ok s →
       ∃ cs, Find s (#9 / #2)%F64 = Ok (cs, (#1 / #2)%F64)).
Proof.
  intros Hall. destruct (Hall _ _ built_line3) as [cs Hcs].
  apply (f_equal (λ r, match r with Ok (_, t) => t <? 1 | Panic _ => false end))
    in Hcs.
  vm_compute in Hcs. done.
Qed.

(** In binary64 too, a set of at least five segments starts at local
    parameter 1/2 on segment 4. *)
Lemma Find_start_line12 :
  ∃ cs, Find (built knots_line12) (#9 / #2)%F64 = Ok (cs, 0.5) ∧ idx cs = 4%Z.
Proof. eexists. split; [vm_compute; reflexivity | by vm_compute]. Qed.

(** C9 fails as stated: on the set built from the knots (6,0), (1,0),
    (0,0) the iteration starts at the end of the last segment, where the
    first and second derivative of the curve are both zero; the Newton
    step is 0/0, the parameter is NaN from then on, and [Find] indexes the
    slice out of range.  The same happens on a segment that is a point. *)
Lemma Evaluate_halt_panics :
  ¬ (∀ (knot : list (V2 float)) s p, CubicSpline2D knot = Ok s →
       ∃ dist, Evaluate s p = Ok dist ∧ (0 <=? dist) = true).
Proof.
  intros Hall. destruct (Hall _ _ (mkV2 3 1) built_halt) as (dist & Hrun & _).
  vm_compute in Hrun. done.
Qed.

Lemma Evaluate_halt_trace :
  ∃ cs, Find (built knots_halt) (#9 / #2)%F64 = Ok (cs, 1) ∧
        CubicSpline.f1 cs 1 = mkV2 0 0 ∧ CubicSpline.f2 cs 1 = mkV2 0 0 ∧
        is_nan (CubicSpline.NR_Iterate cs 1 (mkV2 3 1)) = true ∧
        Evaluate (built knots_halt) (mkV2 3 1) = Panic index_panic ∧
        Evaluate (built knots_point) (mkV2 0 0) = Panic index_panic.
Proof.
  eexists. split_and!; [vm_compute; reflexivity | by vm_compute..].
Qed.

(** The four checks of [TriDiagonal], and the empty matrix, in binary64. *)
Example TriDiagonal_panics_binary64 :
  TriDiagonal [mkV3 1 2 1; mkV3 4 2 0] [3; 3] = Panic bad_values ∧
  TriDiagonal [mkV3 0 2 1; mkV3 4 2 1] [3; 3] = Panic bad_values ∧
  TriDiagonal [mkV3 0 0 1; mkV3 4 2 0] [3; 3] = Panic bad_pivot ∧
  TriDiagonal [mkV3 0 2 1; mkV3 4 2 0] [3; 3] = Panic bad_denom ∧
  TriDiagonal ([] : list (V3 float)) [] = Panic index_panic ∧
  TriDiagonal [mkV3 0 2 1; mkV3 1 2 0] [3; 3] = Ok [1; 1].
Proof. repeat split; vm_compute; reflexivity. Qed.

(** The end-to-end example of the specification, in binary64: three knots
    give two segments, the distance at the middle knot is 0, and the
    distance at (1,0) is positive and below the distance at (1,-5). *)
Example hat_distances :
  let s := built [mkV2 0 0; mkV2 1 1; mkV2 2 0] in
  length (spline s) = 2%nat ∧
  Evaluate s (mkV2 1 1) = Ok 0 ∧
  ∃ near far, Evaluate s (mkV2 1 0) = Ok near ∧ Evaluate s (mkV2 1 (-5)) = Ok far ∧
              (0 <? near) = true ∧ (near <? far) = true.
Proof.
  cbv zeta. split_and!; [by vm_compute | by vm_compute |].
  eexists _, _. split_and!; [vm_compute; reflexivity.. | by vm_compute | by vm_compute].
Qed.

Lemma Evaluate_nonneg_witness : (0 <=? 3) = true.
Proof.
  apply (Evaluate_nonneg (built knots_line3) (mkV2 5 0) 3).
  - vm_compute. reflexivity.
  - vm_compute. reflexivity.
Defined.

Lemma TriDiagonal_size_mismatch_witness :
  TriDiagonal [mkV3 0 2 0] [] = Panic bad_sizes.
Proof. apply TriDiagonal_size_mismatch. simpl. lia. Defined.
End FloatRuns.

Section RealRuns.
Local Open Scope R_scope.
#[local] Existing Instance real_package.

Lemma CubicSpline2D_accepts_witness :
  ∃ s, CubicSpline2D knots_hat = Ok s ∧ length (spline s) = 2%nat.
Proof. apply (CubicSpline2D_accepts knots_hat). simpl. lia. Defined.
End RealRuns.

(** * Further properties *)

Section GenericExtras.
Context {F : Type} `{!Float64Ops F} `{!SdfPackage F} `{!PolygonPackage F}.
Local Open Scope F_scope.

(** What a set returned by [CubicSpline2D] looks like: ten iterations at
    most, and segment [i] carries the index [i] and runs from knot [i] to
    knot [i + 1]. *)
Theorem CubicSpline2D_layout (knot : list (V2 F)) (s : CubicSplineSDF2 F) :
  CubicSpline2D knot = Ok s →
  maxiters s = 10%Z ∧
  ∀ i cs, spline s !! i = Some cs →
    idx cs = Z.of_nat i ∧ knot !! i = Some (p0 cs) ∧ knot !! (i + 1)%nat = Some (p1 cs).
Proof.
  intros Hs. apply CubicSpline2D_Ok_inv in Hs as (Hn & xx & xy & _ & _ & Hsp & Hmax).
  split; [done |]. intros i cs Hcs.
  pose proof (lookup_lt_Some _ _ _ Hcs) as Hi.
  rewrite Hsp, length_tabulate in Hi.
  rewrite Hsp, lookup_tabulate in Hcs by done. injection Hcs as <-.
  unfold segment_of. cbn [idx p0 p1].
  split_and!; [done | |]; apply lookup_knot_at; lia.
Qed.

Lemma at_int_nil {A} (i : Z) : at_int ([] : list A) i = Panic index_panic.
Proof. unfold at_int. by destruct (i <? 0)%Z. Qed.

(** A set without segments (the zero value of the struct) cannot be
    queried: [Find], and with it [F0], [D0] and [Evaluate], panic. *)
Theorem empty_set_panics (s : CubicSplineSDF2 F) (t : F) (p : V2 F) :
  spline s = [] →
  Find s t = Panic index_panic ∧ F0 s t = Panic index_panic ∧
  D0 s t p = Panic index_panic ∧ Evaluate s p = Panic index_panic.
Proof.
  intros Hs.
  assert (∀ u, Find s u = Panic index_panic) as HF.
  { intros u. unfold Find. rewrite Hs. cbn [length].
    destruct (_ =? _)%Z; by rewrite at_int_nil. }
  split_and!.
  - apply HF.
  - unfold F0. by rewrite HF.
  - unfold D0, F0. by rewrite HF.
  - unfold Evaluate. by rewrite HF.
Qed.
End GenericExtras.

Section FindReal.
Context `{!SdfPackage R}.
Local Open Scope R_scope.
Implicit Types (s : CubicSplineSDF2 R) (cs : CubicSpline R).

Lemma Clamp_cases (x a b : R) :
  a <= b →
  (x < a ∧ Clamp x a b = a) ∨ (b < x ∧ Clamp x a b = b) ∨
  (a <= x <= b ∧ Clamp x a b = x).
Proof.
  intros Hab. unfold Clamp. unfold_R. unfold Rltb.
  destruct (Rlt_dec x a); [left; done |].
  destruct (Rlt_dec b x); [right; left; done |].
  right; right. split; [lra | done].
Qed.

Lemma Clamp_bounds (x a b : R) : a <= b → a <= Clamp x a b <= b.
Proof.
  intros Hab.
  destruct (Clamp_cases x a b Hab) as [[? ->] | [[? ->] | [? ->]]]; lra.
Qed.

Lemma Rtrunc_nonneg (c : R) : 0 <= c → Rtrunc c = Zfloor c.
Proof. intros Hc. unfold Rtrunc. destruct (Rlt_dec c 0); [lra | done]. Qed.

Lemma IZR_length_nonneg {A} (l : list A) : 0 <= IZR (Z.of_nat (length l)).
Proof. apply IZR_le. lia. Qed.

Lemma Find_total s (t : R) :
  spline s ≠ [] →
  ∃ (i : nat) cs (u : R),
    Find s t = Ok (cs, u) ∧ spline s !! i = Some cs ∧ 0 <= u <= 1 ∧
    IZR (Z.of_nat i) + u = Clamp t 0 (IZR (Z.of_nat (length (spline s)))).
Proof.
  intros Hne.
  assert (0 < length (spline s))%nat as Hlen by (destruct (spline s); simpl; [done | lia]).
  unfold Find. unfold_R.
  set (N := Z.of_nat (length (spline s))).
  pose proof (Clamp_bounds t 0 (IZR N) (IZR_length_nonneg _)) as Hc.
  set (c := Clamp t 0 (IZR N)) in *.
  rewrite Rtrunc_nonneg by lra.
  pose proof (Zfloor_bound c) as Hfl.
  assert (0 <= Zfloor c)%Z as Hz0 by (apply Zfloor_lub; simpl; lra).
  assert (Zfloor c <= N)%Z as HzN by (apply le_IZR; lra).
  destruct (Z.eqb_spec (Zfloor c) N) as [Heq | Hneq].
  - destruct (lookup_lt_is_Some_2 (spline s) (length (spline s) - 1)) as [cs Hcs];
      [lia |].
    exists (length (spline s) - 1)%nat, cs, 1.
    replace (Zfloor c - 1)%Z with (Z.of_nat (length (spline s) - 1)) by lia.
    rewrite at_int_nat, (proj2 (at_Ok _ _ _) Hcs). simpl.
    split_and!; [done | done | lra | lra |].
    assert (c = IZR N) as -> by (rewrite Heq in Hfl; lra).
    replace (Z.of_nat (length (spline s) - 1)) with (N - 1)%Z by lia.
    rewrite minus_IZR. lra.
  - destruct (lookup_lt_is_Some_2 (spline s) (Z.to_nat (Zfloor c))) as [cs Hcs];
      [lia |].
    exists (Z.to_nat (Zfloor c)), cs, (c - IZR (Zfloor c)).
    rewrite <- (Z2Nat.id (Zfloor c)) at 1 by done.
    rewrite at_int_nat, (proj2 (at_Ok _ _ _) Hcs). simpl.
    rewrite Z2Nat.id by done.
    split_and!; [done | done | lra | lra | lra].
Qed.

(** [Find] on a set with at least one segment, in exact arithmetic: it
    returns for every global parameter, a segment of the set and a local
    parameter in [0, 1], and position plus local parameter is the global
    parameter clamped to [0, number of segments]. *)
Theorem Find_decomposes s (t : R) :
  spline s ≠ [] →
  ∃ (i : nat) cs (u : R),
    Find s t = Ok (cs, u) ∧ spline s !! i = Some cs ∧ 0 <= u <= 1 ∧
    IZR (Z.of_nat i) + u = Clamp t 0 (IZR (Z.of_nat (length (spline s)))).
Proof. apply Find_total. Qed.

Lemma Find_inside_and_end s (i : nat) cs (u : R) :
  spline s !! i = Some cs → 0 <= u < 1 →
  Find s (IZR (Z.of_nat i) + u) = Ok (cs, u) ∧
  ∃ last, spline s !! (length (spline s) - 1)%nat = Some last ∧
          Find s (IZR (Z.of_nat (length (spline s)))) = Ok (last, 1).
Proof.
  intros Hcs Hu. pose proof (lookup_lt_Some _ _ _ Hcs) as Hi.
  assert (IZR (Z.of_nat i) + 1 <= IZR (Z.of_nat (length (spline s)))) as HiN.
  { rewrite <- plus_IZR. apply IZR_le. lia. }
  assert (0 <= IZR (Z.of_nat i)) as Hi0 by (apply IZR_le; lia).
  split.
  - unfold Find. unfold_R.
    destruct (Clamp_cases (IZR (Z.of_nat i) + u) 0 (IZR (Z.of_nat (length (spline s)))))
      as [[? _] | [[? _] | [_ ->]]]; [apply IZR_length_nonneg | lra | lra |].
    rewrite Rtrunc_nonneg by lra.
    rewrite (Zfloor_eq (Z.of_nat i)) by lra.
    destruct (Z.eqb_spec (Z.of_nat i) (Z.of_nat (length (spline s)))); [lia |].
    rewrite at_int_nat, (proj2 (at_Ok _ _ _) Hcs). simpl. do 2 f_equal. lra.
  - destruct (lookup_lt_is_Some_2 (spline s) (length (spline s) - 1)) as [last Hlast];
      [lia |].
    exists last. split; [done |].
    unfold Find. unfold_R.
    destruct (Clamp_cases (IZR (Z.of_nat (length (spline s)))) 0
                (IZR (Z.of_nat (length (spline s)))))
      as [[? _] | [[? _] | [_ ->]]]; [apply IZR_length_nonneg | lra | lra |].
    rewrite Rtrunc_IZR by lia. rewrite Z.eqb_refl.
    replace (Z.of_nat (length (spline s)) - 1)%Z
      with (Z.of_nat (length (spline s) - 1)) by lia.
    by rewrite at_int_nat, (proj2 (at_Ok _ _ _) Hlast).
Qed.

(** Position and local parameter make a global parameter that [Find]
    takes apart again; the number of segments itself is the end of the
    last segment. *)
Theorem Find_round_trip s (i : nat) cs (u : R) :
  spline s !! i = Some cs → 0 <= u < 1 →
  Find s (IZR (Z.of_nat i) + u) = Ok (cs, u) ∧
  ∃ last, spline s !! (length (spline s) - 1)%nat = Some last ∧
          Find s (IZR (Z.of_nat (length (spline s)))) = Ok (last, 1).
Proof. apply Find_inside_and_end. Qed.

End FindReal.

Section Derivatives.
Local Open Scope R_scope.

(** The derivative of a cubic in the nested form the code evaluates. *)
Lemma cubic_derivative (pa pb pc pd t : R) :
  derivable_pt_lim (λ t, pa + t * (pb + t * (pc + pd * t))) t
    (pb + t * (2 * pc + 3 * pd * t)).
Proof.
  replace (pb + t * (2 * pc + 3 * pd * t))
    with (0 + (1 * (pb + t * (pc + pd * t))
               + t * (0 + (1 * (pc + pd * t) + t * (0 + (0 * t + pd * 1))))))
    by ring.
  apply (derivable_pt_lim_plus (fct_cte pa) (λ t, t * (pb + t * (pc + pd * t)))).
  { apply derivable_pt_lim_const. }
  apply (derivable_pt_lim_mult id (λ t, pb + t * (pc + pd * t))).
  { apply derivable_pt_lim_id. }
  apply (derivable_pt_lim_plus (fct_cte pb) (λ t, t * (pc + pd * t))).
  { apply derivable_pt_lim_const. }
  apply (derivable_pt_lim_mult id (λ t, pc + pd * t)).
  { apply derivable_pt_lim_id. }
  apply (derivable_pt_lim_plus (fct_cte pc) (λ t, pd * t)).
  { apply derivable_pt_lim_const. }
  apply (derivable_pt_lim_mult (fct_cte pd) id).
  { apply derivable_pt_lim_const. }
  apply derivable_pt_lim_id.
Qed.

Lemma quadratic_derivative (pb pc pd t : R) :
  derivable_pt_lim (λ t, pb + t * (2 * pc + 3 * pd * t)) t (2 * pc + 6 * pd * t).
Proof.
  replace (2 * pc + 6 * pd * t)
    with (0 + (1 * (2 * pc + 3 * pd * t) + t * (0 + (0 * t + (3 * pd) * 1))))
    by ring.
  apply (derivable_pt_lim_plus (fct_cte pb) (λ t, t * (2 * pc + 3 * pd * t))).
  { apply derivable_pt_lim_const. }
  apply (derivable_pt_lim_mult id (λ t, 2 * pc + 3 * pd * t)).
  { apply derivable_pt_lim_id. }
  apply (derivable_pt_lim_plus (fct_cte (2 * pc)) (λ t, 3 * pd * t)).
  { apply derivable_pt_lim_const. }
  apply (derivable_pt_lim_mult (fct_cte (3 * pd)) id).
  { apply derivable_pt_lim_const. }
  apply derivable_pt_lim_id.
Qed.

(** [f1] is the derivative of [f0] and [f2] the derivative of [f1], at
    every parameter. *)
Theorem polynomial_derivatives (p : CubicPolynomial R) (t : R) :
  derivable_pt_lim (CubicPolynomial.f0 p) t (CubicPolynomial.f1 p t) ∧
  derivable_pt_lim (CubicPolynomial.f1 p) t (CubicPolynomial.f2 p t).
Proof.
  split.
  - apply (cubic_derivative (a p) (b p) (c p) (d p) t).
  - apply (quadratic_derivative (b p) (c p) (d p) t).
Qed.
End Derivatives.

Section Newton.
Context `{!SdfPackage R}.
Local Open Scope R_scope.

Lemma shifted_square_derivative (f : R → R) (f' c t : R) :
  derivable_pt_lim f t f' →
  derivable_pt_lim (λ u, (f u - c) * (f u - c)) t (2 * ((f t - c) * f')).
Proof.
  intros Hf.
  assert (derivable_pt_lim (λ u, f u - c) t f') as Hs.
  { replace f' with (f' - 0) by ring.
    apply (derivable_pt_lim_minus f (fct_cte c)); [done |].
    apply derivable_pt_lim_const. }
  replace (2 * ((f t - c) * f')) with (f' * (f t - c) + (f t - c) * f') by ring.
  by apply (derivable_pt_lim_mult (λ u, f u - c) (λ u, f u - c)).
Qed.

Lemma shifted_product_derivative (f g : R → R) (f' g' c t : R) :
  derivable_pt_lim f t f' → derivable_pt_lim g t g' →
  derivable_pt_lim (λ u, (f u - c) * g u) t (f' * g t + (f t - c) * g').
Proof.
  intros Hf Hg.
  assert (derivable_pt_lim (λ u, f u - c) t f') as Hs.
  { replace f' with (f' - 0) by ring.
    apply (derivable_pt_lim_minus f (fct_cte c)); [done |].
    apply derivable_pt_lim_const. }
  by apply (derivable_pt_lim_mult (λ u, f u - c) g).
Qed.

(** The squared distance along a segment and its two derivatives. *)
Lemma sq_dist_derivatives (cs : CubicSpline R) (t : R) (p : V2 R) :
  derivable_pt_lim (λ u, sq_dist cs u p) t (sq_dist_d1 cs t p) ∧
  derivable_pt_lim (λ u, sq_dist_d1 cs u p) t (sq_dist_d2 cs t p).
Proof.
  pose proof (cubic_derivative (a (px cs)) (b (px cs)) (c (px cs)) (d (px cs)) t) as Hx.
  pose proof (cubic_derivative (a (py cs)) (b (py cs)) (c (py cs)) (d (py cs)) t) as Hy.
  pose proof (quadratic_derivative (b (px cs)) (c (px cs)) (d (px cs)) t) as Hx'.
  pose proof (quadratic_derivative (b (py cs)) (c (py cs)) (d (py cs)) t) as Hy'.
  split.
  - unfold sq_dist, sq_dist_d1, CubicSpline.f0, CubicSpline.f1,
      CubicPolynomial.f0, CubicPolynomial.f1.
    cbn [V2_X V2_Y]. unfold_R.
    match goal with |- derivable_pt_lim _ _ (2 * (?A + ?B)) =>
      replace (2 * (A + B)) with (2 * A + 2 * B) by ring end.
    apply (derivable_pt_lim_plus
             (λ u, (_ - V2_X p) * (_ - V2_X p)) (λ u, (_ - V2_Y p) * (_ - V2_Y p))).
    + apply (shifted_square_derivative _ _ _ _ Hx).
    + apply (shifted_square_derivative _ _ _ _ Hy).
  - unfold sq_dist_d1, sq_dist_d2, CubicSpline.f0, CubicSpline.f1, CubicSpline.f2,
      CubicPolynomial.f0, CubicPolynomial.f1, CubicPolynomial.f2.
    cbn [V2_X V2_Y]. unfold_R.
    match goal with |- derivable_pt_lim _ _ (2 * (?A * ?X2 + ?X1 * ?X1 + ?B * ?Y2 + ?Y1 * ?Y1)) =>
      replace (2 * (A * X2 + X1 * X1 + B * Y2 + Y1 * Y1))
        with (2 * ((X1 * X1 + A * X2) + (Y1 * Y1 + B * Y2))) by ring end.
    apply (derivable_pt_lim_scal (λ u, (_ - V2_X p) * _ + (_ - V2_Y p) * _) 2).
    apply (derivable_pt_lim_plus (λ u, (_ - V2_X p) * _) (λ u, (_ - V2_Y p) * _)).
    + apply (shifted_product_derivative _ _ _ _ _ _ Hx Hx').
    + apply (shifted_product_derivative _ _ _ _ _ _ Hy Hy').
Qed.

(** [NR_Iterate] is the Newton-Raphson step for a zero of the derivative
    of the squared distance: along a segment the squared distance to the
    query point has the first derivative [2 (dx f1x + dy f1y)] and the
    second derivative [2 (dx f2x + f1x² + dy f2y + f1y²)], and the step
    is [t] minus their quotient. *)
Theorem NR_Iterate_is_Newton_step (cs : CubicSpline R) (t : R) (p : V2 R) :
  derivable_pt_lim (λ u, sq_dist cs u p) t (sq_dist_d1 cs t p) ∧
  derivable_pt_lim (λ u, sq_dist_d1 cs u p) t (sq_dist_d2 cs t p) ∧
  CubicSpline.NR_Iterate cs t p = t - sq_dist_d1 cs t p / sq_dist_d2 cs t p.
Proof.
  destruct (sq_dist_derivatives cs t p) as [H1 H2]. split_and!; [done | done |].
  unfold CubicSpline.NR_Iterate, sq_dist_d1, sq_dist_d2. unfold_R.
  unfold Rdiv. rewrite Rinv_mult. f_equal.
  match goal with |- _ = _ * (_ * ?I) => generalize I end.
  intros. lra.
Qed.

(** A derivative only depends on the function near the point, and moves
    with a shift of the parameter. *)
Lemma derivable_pt_lim_near (f g : R → R) (x l r : R) :
  0 < r → (∀ y, Rabs (y - x) < r → f y = g y) →
  derivable_pt_lim g x l → derivable_pt_lim f x l.
Proof.
  intros Hr Hfg Hg eps Heps. destruct (Hg eps Heps) as [delta Hdelta].
  assert (0 < Rmin delta r) as Hmin by (apply Rmin_pos; [apply cond_pos | done]).
  exists (mkposreal _ Hmin). intros h Hh Hlt. simpl in Hlt.
  rewrite (Hfg (x + h)), (Hfg x).
  - apply Hdelta; [done |]. eapply Rlt_le_trans; [exact Hlt | apply Rmin_l].
  - replace (x - x) with 0 by ring. by rewrite Rabs_R0.
  - replace (x + h - x) with h by ring.
    eapply Rlt_le_trans; [exact Hlt | apply Rmin_r].
Qed.

Lemma derivable_pt_lim_shift (g : R → R) (u c l : R) :
  derivable_pt_lim g u l → derivable_pt_lim (λ T, g (T - c)) (c + u) l.
Proof.
  intros Hg eps Heps. destruct (Hg eps Heps) as [delta Hdelta].
  exists delta. intros h Hh Hlt.
  replace (c + u + h - c) with (u + h) by ring.
  replace (c + u - c) with u by ring. by apply Hdelta.
Qed.

Lemma D_at (s : CubicSplineSDF2 R) (i : nat) cs (u : R) (p : V2 R) :
  spline s !! i = Some cs → 0 <= u < 1 →
  D0 s (IZR (Z.of_nat i) + u) p = Ok (sq_dist cs u p) ∧
  D1 s (IZR (Z.of_nat i) + u) p = Ok (sq_dist_d1 cs u p) ∧
  D2 s (IZR (Z.of_nat i) + u) p = Ok (sq_dist_d2 cs u p).
Proof.
  intros Hcs Hu.
  destruct (Find_inside_and_end s i cs u Hcs Hu) as [HF _].
  unfold D0, D1, D2, F0, F1, F2. rewrite HF. done.
Qed.

Lemma D_near (s : CubicSplineSDF2 R) (i : nat) cs (u : R) (p : V2 R) (T : R) :
  spline s !! i = Some cs → 0 < u < 1 →
  Rabs (T - (IZR (Z.of_nat i) + u)) < Rmin u (1 - u) →
  D0 s T p = Ok (sq_dist cs (T - IZR (Z.of_nat i)) p) ∧
  D1 s T p = Ok (sq_dist_d1 cs (T - IZR (Z.of_nat i)) p).
Proof.
  intros Hcs Hu HT.
  assert (0 <= T - IZR (Z.of_nat i) < 1) as Hv.
  { apply Rabs_def2 in HT.
    pose proof (Rmin_l u (1 - u)). pose proof (Rmin_r u (1 - u)). lra. }
  destruct (D_at s i cs _ p Hcs Hv) as (H0 & H1 & _).
  replace (IZR (Z.of_nat i) + (T - IZR (Z.of_nat i))) with T in H0, H1 by ring.
  done.
Qed.

(** Strictly inside segment [i] the functions [D0], [D1] and [D2] of the
    set are the squared distance to the curve point and its derivatives:
    [D1] is the derivative of [D0], and [D2] the derivative of [D1], in
    the global parameter. *)
Theorem D1_D2_are_derivatives (s : CubicSplineSDF2 R) (i : nat) cs (u : R) (p : V2 R) :
  spline s !! i = Some cs → 0 < u < 1 →
  let T := IZR (Z.of_nat i) + u in
  D0 s T p = Ok (sq_dist cs u p) ∧
  derivable_pt_lim (λ T, result_value (D0 s T p)) T (result_value (D1 s T p)) ∧
  derivable_pt_lim (λ T, result_value (D1 s T p)) T (result_value (D2 s T p)).
Proof.
  intros Hcs Hu T.
  destruct (D_at s i cs u p Hcs ltac:(lra)) as (H0 & H1 & H2). fold T in H0, H1, H2.
  destruct (sq_dist_derivatives cs u p) as [Hd1 Hd2].
  assert (0 < Rmin u (1 - u)) as Hr by (apply Rmin_pos; lra).
  split; [done |]. rewrite H1, H2. cbn [result_value]. split.
  - apply (derivable_pt_lim_near _ (λ T, sq_dist cs (T - IZR (Z.of_nat i)) p) _ _ _ Hr).
    + intros y Hy. by destruct (D_near s i cs u p y Hcs Hu Hy) as [-> _].
    + exact (derivable_pt_lim_shift (λ v, sq_dist cs v p) u (IZR (Z.of_nat i)) _ Hd1).
  - apply (derivable_pt_lim_near _ (λ T, sq_dist_d1 cs (T - IZR (Z.of_nat i)) p) _ _ _ Hr).
    + intros y Hy. by destruct (D_near s i cs u p y Hcs Hu Hy) as [_ ->].
    + exact (derivable_pt_lim_shift (λ v, sq_dist_d1 cs v p) u (IZR (Z.of_nat i)) _ Hd2).
Qed.
End Newton.

Section BoxGeneric.
Context {F : Type} `{!Float64Ops F} `{!SdfPackage F} `{!PolygonPackage F}.

Lemma extend_loop (sp : list (CubicSpline F)) (count lo : nat) (box : Box2) :
  lo + count ≤ length sp →
  for_up lo count (extend_box sp) box
  = Ok (foldl Box2_Extend box (CubicSpline.BoundingBox <$> take count (drop lo sp))).
Proof.
  revert lo box. induction count as [|count IH]; intros lo box Hlen; [done |].
  destruct (lookup_lt_is_Some_2 sp lo) as [si Hsi]; [lia |].
  cbn [for_up].
  assert (extend_box sp lo box = Ok (Box2_Extend box (CubicSpline.BoundingBox si))) as ->.
  { unfold extend_box. by rewrite (proj2 (at_Ok _ _ _) Hsi). }
  cbn [mbind result_bind]. rewrite IH by lia.
  rewrite (drop_S _ _ _ Hsi). done.
Qed.

(** The box of a set built by [CubicSpline2D] is the box of its first
    segment extended by the boxes of the others, in order. *)
Lemma bb_fold (knot : list (V2 F)) (s : CubicSplineSDF2 F) :
  CubicSpline2D knot = Ok s →
  ∃ s0 rest, spline s = s0 :: rest ∧
    CubicSplineSDF2.BoundingBox s
    = foldl Box2_Extend (CubicSpline.BoundingBox s0) (CubicSpline.BoundingBox <$> rest).
Proof.
  intros Hrun.
  destruct (decide (2 ≤ length knot)) as [Hn | Hn];
    [| rewrite CubicSpline2D_too_few in Hrun by lia; done].
  rewrite CubicSpline2D_prelude in Hrun by done.
  apply bind_Ok in Hrun as (xx & Hxx & Hrun).
  apply bind_Ok in Hrun as (xy & Hxy & Hrun).
  apply TriDiagonal_sound in Hxx as (_ & _ & _ & Hlx & _).
  apply TriDiagonal_sound in Hxy as (_ & _ & _ & Hly & _).
  unfold spline_matrix in Hlx, Hly. rewrite length_tabulate in Hlx, Hly.
  rewrite segments_loop in Hrun by done.
  remember (segment_of knot xx xy <$> seq 0 (length knot - 1)) as sp eqn:Esp.
  assert (length sp = (length knot - 1)%nat) as Hsp by (subst sp; apply length_tabulate).
  clear Esp. cbn [mbind result_bind] in Hrun.
  apply bind_Ok in Hrun as (s0 & Hs0 & Hrun). apply at_Ok in Hs0.
  rewrite (extend_loop sp (length knot - 2) 1) in Hrun by lia. cbn [mbind result_bind] in Hrun.
  injection Hrun as <-.
  destruct sp as [|s0' rest]; [done |]. injection Hs0 as ->.
  exists s0, rest. split; [done |].
  unfold CubicSplineSDF2.BoundingBox. cbn [bb].
  change (drop 1 (s0 :: rest)) with rest.
  rewrite take_ge; [done |]. cbn [length] in Hsp. lia.
Qed.

(** The box of a set built by [CubicSpline2D] is the box of its first
    segment extended by the boxes of the others in order; it contains
    every knot, for any notion of containment that the box of a list of
    points and the extension of a box respect. *)
Theorem BoundingBox_contains_knots (inside : V2 F → Box2 → Prop)
    (knot : list (V2 F)) (s : CubicSplineSDF2 F) :
  (∀ pts v, v ∈ pts → inside v (V2Set_Box2 pts)) →
  (∀ v box box', inside v box ∨ inside v box' → inside v (Box2_Extend box box')) →
  CubicSpline2D knot = Ok s →
  (∃ s0 rest, spline s = s0 :: rest ∧
     CubicSplineSDF2.BoundingBox s
     = foldl Box2_Extend (CubicSpline.BoundingBox s0) (CubicSpline.BoundingBox <$> rest)) ∧
  ∀ k, k ∈ knot → inside k (CubicSplineSDF2.BoundingBox s).
Proof.
  intros Hpts Hext Hrun. pose proof (bb_fold knot s Hrun) as Hfold.
  split; [done |]. destruct Hfold as (s0 & rest & Hsp & ->).
  assert (∀ v cs, (v = p0 cs ∨ v = p1 cs) → inside v (CubicSpline.BoundingBox cs)) as Hseg.
  { intros v cs Hv. unfold CubicSpline.BoundingBox. apply Hpts.
    rewrite <- !app_assoc. apply elem_of_app. left.
    destruct Hv as [-> | ->];
      [apply list_elem_of_here | apply list_elem_of_further, list_elem_of_here]. }
  assert (∀ v l box, (inside v box ∨ ∃ cs, cs ∈ l ∧ inside v (CubicSpline.BoundingBox cs)) →
            inside v (foldl Box2_Extend box (CubicSpline.BoundingBox <$> l))) as Hin.
  { intros v l. induction l as [|c l IH]; intros box [Hb | (cs & Hcs & Hb)]; simpl.
    - done.
    - by apply elem_of_nil in Hcs.
    - apply IH. left. apply Hext. by left.
    - apply elem_of_cons in Hcs as [-> | Hcs].
      + apply IH. left. apply Hext. by right.
      + apply IH. right. eauto. }
  assert (∀ v cs, cs ∈ spline s → (v = p0 cs ∨ v = p1 cs) →
            inside v (foldl Box2_Extend (CubicSpline.BoundingBox s0)
                        (CubicSpline.BoundingBox <$> rest))) as Hany.
  { intros v cs Hcs Hv. apply Hin. rewrite Hsp in Hcs.
    apply elem_of_cons in Hcs as [-> | Hcs]; [left | right; exists cs; split; [done |]];
      by apply Hseg. }
  intros k Hk. apply list_elem_of_lookup in Hk as [i Hi].
  pose proof (lookup_lt_Some _ _ _ Hi) as Hlt.
  pose proof (CubicSpline2D_Ok_inv _ _ Hrun) as (Hn & xx & xy & _ & _ & Hseq & _).
  destruct (decide (i < length knot - 1)) as [Hi' | Hi'].
  - apply (Hany k (segment_of knot xx xy i)).
    + rewrite Hseq. apply list_elem_of_lookup. exists i. by apply lookup_tabulate.
    + left. unfold segment_of. cbn [p0]. unfold knot_at. by rewrite Hi.
  - apply (Hany k (segment_of knot xx xy (length knot - 2))).
    + rewrite Hseq. apply list_elem_of_lookup. exists (length knot - 2).
      apply lookup_tabulate. lia.
    + right. unfold segment_of. cbn [p1]. unfold knot_at.
      replace (length knot - 2 + 1) with i by lia. by rewrite Hi.
Qed.
End BoxGeneric.

Section BoxReal.
Context `{!SdfPackage R}.
Local Open Scope R_scope.
Implicit Types (s : CubicSplineSDF2 R) (cs : CubicSpline R) (q : CubicPolynomial R).

Lemma f0_derivable q t : derivable_pt (CubicPolynomial.f0 q) t.
Proof.
  exists (CubicPolynomial.f1 q t). apply (cubic_derivative (a q) (b q) (c q) (d q) t).
Qed.

Lemma f0_derive q t : derive_pt (CubicPolynomial.f0 q) t (f0_derivable q t) = CubicPolynomial.f1 q t.
Proof.
  apply derive_pt_eq_0. apply (cubic_derivative (a q) (b q) (c q) (d q) t).
Qed.

(** On [0, 1] a cubic is largest (smallest) at an end or where its
    derivative [f1] is zero. *)
Lemma cubic_largest q t :
  0 <= t <= 1 →
  ∃ u, 0 <= u <= 1 ∧ CubicPolynomial.f0 q t <= CubicPolynomial.f0 q u ∧
       (u = 0 ∨ u = 1 ∨ CubicPolynomial.f1 q u = 0).
Proof.
  intros Ht.
  destruct (continuity_ab_maj (CubicPolynomial.f0 q) 0 1) as (u & Hmax & Hu); [lra | |].
  { intros c _. apply derivable_continuous_pt, f0_derivable. }
  exists u. split; [done |]. split; [by apply Hmax |].
  destruct (Req_dec u 0) as [-> | H0]; [by left |].
  destruct (Req_dec u 1) as [-> | H1]; [by right; left |].
  right; right. rewrite <- f0_derive.
  apply (deriv_maximum _ 0 1); [lra | lra |].
  intros x Hx0 Hx1. apply Hmax. lra.
Qed.

Lemma cubic_smallest q t :
  0 <= t <= 1 →
  ∃ u, 0 <= u <= 1 ∧ CubicPolynomial.f0 q u <= CubicPolynomial.f0 q t ∧
       (u = 0 ∨ u = 1 ∨ CubicPolynomial.f1 q u = 0).
Proof.
  intros Ht.
  destruct (continuity_ab_min (CubicPolynomial.f0 q) 0 1) as (u & Hmin & Hu); [lra | |].
  { intros c _. apply derivable_continuous_pt, f0_derivable. }
  exists u. split; [done |]. split; [by apply Hmin |].
  destruct (Req_dec u 0) as [-> | H0]; [by left |].
  destruct (Req_dec u 1) as [-> | H1]; [by right; left |].
  right; right. rewrite <- f0_derive.
  apply (deriv_minimum _ 0 1); [lra | lra |].
  intros x Hx0 Hx1. apply Hmin. lra.
Qed.

(** Where a cubic is stationary inside [0, 1], its parameter is one of
    [f1_zeroes], or the cubic is constant. *)
Lemma stationary_found q u :
  finds_roots → CubicPolynomial.f1 q u = 0 →
  u ∈ CubicPolynomial.f1_zeroes q ∨ ∀ t, CubicPolynomial.f0 q t = CubicPolynomial.f0 q 0.
Proof.
  intros Hq Hu. unfold CubicPolynomial.f1 in Hu. unfold_R.
  destruct (Req_dec (d q) 0) as [Hd | Hd].
  - destruct (Req_dec (c q) 0) as [Hc | Hc].
    + right. intros t. unfold CubicPolynomial.f0. unfold_R.
      rewrite Hd, Hc in *. assert (b q = 0) as -> by lra. ring.
    + left. unfold CubicPolynomial.f1_zeroes. unfold_R.
      apply Hq; [right; lra | lra].
  - left. unfold CubicPolynomial.f1_zeroes. unfold_R.
    apply Hq; [left; lra | lra].
Qed.

Lemma Clamp_inside (u : R) : 0 <= u <= 1 → Clamp u 0 1 = u.
Proof.
  intros Hu. destruct (Clamp_cases u 0 1) as [[? _] | [[? _] | [_ ->]]]; (lra || done).
Qed.

Lemma extreme_point_x cs u :
  finds_roots →
  CubicSpline.f0 cs 0 = p0 cs → CubicSpline.f0 cs 1 = p1 cs →
  0 <= u <= 1 → (u = 0 ∨ u = 1 ∨ CubicPolynomial.f1 (px cs) u = 0) →
  ∃ w, w ∈ box_points cs ∧ V2_X w = CubicPolynomial.f0 (px cs) u.
Proof.
  intros Hq H0 H1 Hu Hcase.
  assert (p0 cs ∈ box_points cs) as Hp0.
  { unfold box_points. rewrite <- !app_assoc. apply elem_of_app. left.
    apply list_elem_of_here. }
  assert (p1 cs ∈ box_points cs) as Hp1.
  { unfold box_points. rewrite <- !app_assoc. apply elem_of_app. left.
    apply list_elem_of_further, list_elem_of_here. }
  destruct Hcase as [-> | [-> | Hz]].
  - exists (p0 cs). split; [done |]. by rewrite <- H0.
  - exists (p1 cs). split; [done |]. by rewrite <- H1.
  - destruct (stationary_found _ _ Hq Hz) as [Hin | Hconst].
    + exists (CubicSpline.f0 cs u). split; [| done].
      unfold box_points. apply elem_of_app. left. apply elem_of_app. right.
      apply list_elem_of_fmap. exists u. by rewrite Clamp_inside.
    + exists (p0 cs). split; [done |]. rewrite <- H0. cbn [CubicSpline.f0 V2_X].
      symmetry. apply Hconst.
Qed.

Lemma extreme_point_y cs u :
  finds_roots →
  CubicSpline.f0 cs 0 = p0 cs → CubicSpline.f0 cs 1 = p1 cs →
  0 <= u <= 1 → (u = 0 ∨ u = 1 ∨ CubicPolynomial.f1 (py cs) u = 0) →
  ∃ w, w ∈ box_points cs ∧ V2_Y w = CubicPolynomial.f0 (py cs) u.
Proof.
  intros Hq H0 H1 Hu Hcase.
  assert (p0 cs ∈ box_points cs) as Hp0.
  { unfold box_points. rewrite <- !app_assoc. apply elem_of_app. left.
    apply list_elem_of_here. }
  assert (p1 cs ∈ box_points cs) as Hp1.
  { unfold box_points. rewrite <- !app_assoc. apply elem_of_app. left.
    apply list_elem_of_further, list_elem_of_here. }
  destruct Hcase as [-> | [-> | Hz]].
  - exists (p0 cs). split; [done |]. by rewrite <- H0.
  - exists (p1 cs). split; [done |]. by rewrite <- H1.
  - destruct (stationary_found _ _ Hq Hz) as [Hin | Hconst].
    + exists (CubicSpline.f0 cs u). split; [| done].
      unfold box_points. apply elem_of_app. right.
      apply list_elem_of_fmap. exists u. by rewrite Clamp_inside.
    + exists (p0 cs). split; [done |]. rewrite <- H0. cbn [CubicSpline.f0 V2_Y].
      symmetry. apply Hconst.
Qed.

Lemma segment_in_box (inside : V2 R → Box2 → Prop) cs (t : R) :
  finds_roots → covers inside →
  CubicSpline.f0 cs 0 = p0 cs → CubicSpline.f0 cs 1 = p1 cs →
  0 <= t <= 1 →
  inside (CubicSpline.f0 cs t) (CubicSpline.BoundingBox cs).
Proof.
  intros Hq Hcov H0 H1 Ht.
  change (CubicSpline.BoundingBox cs) with (V2Set_Box2 (box_points cs)).
  apply Hcov.
  - destruct (cubic_smallest (px cs) t Ht) as (u & Hu & Hle & Hcase).
    destruct (cubic_largest (px cs) t Ht) as (u' & Hu' & Hle' & Hcase').
    destruct (extreme_point_x cs u Hq H0 H1 Hu Hcase) as (lo & Hlo & Elo).
    destruct (extreme_point_x cs u' Hq H0 H1 Hu' Hcase') as (hi & Hhi & Ehi).
    exists lo, hi. rewrite Elo, Ehi. done.
  - destruct (cubic_smallest (py cs) t Ht) as (u & Hu & Hle & Hcase).
    destruct (cubic_largest (py cs) t Ht) as (u' & Hu' & Hle' & Hcase').
    destruct (extreme_point_y cs u Hq H0 H1 Hu Hcase) as (lo & Hlo & Elo).
    destruct (extreme_point_y cs u' Hq H0 H1 Hu' Hcase') as (hi & Hhi & Ehi).
    exists lo, hi. rewrite Elo, Ehi. done.
Qed.

(** The box of a segment contains the segment: with a [quadratic] that
    finds the roots and a box that covers its points, every point of a
    segment that starts and ends at its stored end points lies in the
    segment's [BoundingBox]. *)
Theorem BoundingBox_contains_segment (inside : V2 R → Box2 → Prop) cs (t : R) :
  finds_roots → covers inside →
  CubicSpline.f0 cs 0 = p0 cs → CubicSpline.f0 cs 1 = p1 cs →
  0 <= t <= 1 →
  inside (CubicSpline.f0 cs t) (CubicSpline.BoundingBox cs).
Proof. apply segment_in_box. Qed.

End BoxReal.

(** The helpers of [spec_package] at the reals meet what the box
    theorems ask of them. *)
Section SpecPackageReal.
Variable eps : R.
Local Open Scope R_scope.

Lemma spec_quadratic_finds_roots : @finds_roots (spec_package eps).
Proof.
  intros qa qb qc t Hab Hroot. cbn [quadratic spec_package].
  unfold spec_quadratic. unfold_R. unfold Reqb, Rltb.
  destruct (Req_dec_T qa 0) as [Ha | Ha].
  - destruct (Req_dec_T qb 0) as [Hb | Hb]; [destruct Hab; done |].
    apply list_elem_of_singleton. subst qa. field_simplify_eq; [lra | done].
  - set (det := qb * qb - 4 * qa * qc).
    assert (det = Rsqr (2 * qa * t + qb)) as Hdet.
    { unfold det, Rsqr. replace qc with (- (qa * (t * t) + qb * t)) by lra. ring. }
    pose proof (Rle_0_sqr (2 * qa * t + qb)) as Hpos.
    destruct (Rlt_dec det 0) as [Hneg | _]; [lra |].
    destruct (Req_dec_T det 0) as [Hz | Hz].
    + apply list_elem_of_singleton.
      assert (2 * qa * t + qb = 0) as Hlin by (apply Rsqr_0_uniq; lra).
      field_simplify_eq; [lra | done].
    + assert (R_sqrt.sqrt det = Rabs (2 * qa * t + qb)) as Hsq
          by (rewrite Hdet; apply sqrt_Rsqr_abs).
      rewrite Hsq. unfold Rabs. destruct (Rcase_abs (2 * qa * t + qb)).
      * apply elem_of_cons. right. apply list_elem_of_singleton.
        field_simplify_eq; [lra | done].
      * apply elem_of_cons. left. field_simplify_eq; [lra | done].
Qed.

Lemma f_min_le (x y : R) : f_min x y <= x ∧ f_min x y <= y.
Proof. unfold f_min. unfold_R. unfold Rltb. destruct (Rlt_dec y x); lra. Qed.

Lemma f_max_ge (x y : R) : x <= f_max x y ∧ y <= f_max x y.
Proof. unfold f_max. unfold_R. unfold Rltb. destruct (Rlt_dec x y); lra. Qed.

Lemma fold_min_below (p : list (V2 R)) (acc : V2 R) :
  let lo := foldl (λ lo w, mkV2 (f_min (V2_X lo) (V2_X w)) (f_min (V2_Y lo) (V2_Y w)))
              acc p in
  ∀ w, w = acc ∨ w ∈ p → V2_X lo <= V2_X w ∧ V2_Y lo <= V2_Y w.
Proof.
  revert acc. induction p as [|v p IH]; intros acc lo w Hw.
  - destruct Hw as [-> | Hw]; [subst lo; simpl; lra | by apply elem_of_nil in Hw].
  - subst lo. cbn [foldl].
    set (acc' := mkV2 (f_min (V2_X acc) (V2_X v)) (f_min (V2_Y acc) (V2_Y v))).
    pose proof (IH acc' acc' (or_introl eq_refl)) as Hacc. cbn zeta in Hacc.
    pose proof (f_min_le (V2_X acc) (V2_X v)). pose proof (f_min_le (V2_Y acc) (V2_Y v)).
    subst acc'. cbn [V2_X V2_Y] in Hacc.
    destruct Hw as [-> | Hw]; [lra |].
    apply elem_of_cons in Hw as [-> | Hw]; [lra |].
    apply (IH _ w). by right.
Qed.

Lemma fold_max_above (p : list (V2 R)) (acc : V2 R) :
  let hi := foldl (λ hi w, mkV2 (f_max (V2_X hi) (V2_X w)) (f_max (V2_Y hi) (V2_Y w)))
              acc p in
  ∀ w, w = acc ∨ w ∈ p → V2_X w <= V2_X hi ∧ V2_Y w <= V2_Y hi.
Proof.
  revert acc. induction p as [|v p IH]; intros acc hi w Hw.
  - destruct Hw as [-> | Hw]; [subst hi; simpl; lra | by apply elem_of_nil in Hw].
  - subst hi. cbn [foldl].
    set (acc' := mkV2 (f_max (V2_X acc) (V2_X v)) (f_max (V2_Y acc) (V2_Y v))).
    pose proof (IH acc' acc' (or_introl eq_refl)) as Hacc. cbn zeta in Hacc.
    pose proof (f_max_ge (V2_X acc) (V2_X v)). pose proof (f_max_ge (V2_Y acc) (V2_Y v)).
    subst acc'. cbn [V2_X V2_Y] in Hacc.
    destruct Hw as [-> | Hw]; [lra |].
    apply elem_of_cons in Hw as [-> | Hw]; [lra |].
    apply (IH _ w). by right.
Qed.

Lemma spec_box_covers : @covers (spec_package eps) inside_box.
Proof.
  intros pts v (lx & hx & Hlx & Hhx & Hx) (ly & hy & Hly & Hhy & Hy).
  cbn [V2Set_Box2 spec_package]. destruct pts as [|v0 p]; [by apply elem_of_nil in Hlx |].
  assert (∀ w, w ∈ v0 :: p → w = v0 ∨ w ∈ p) as Hcons
      by (intros w Hw; by apply elem_of_cons in Hw).
  unfold spec_box, inside_box. cbn [fst snd].
  pose proof (fold_min_below p v0 lx (Hcons _ Hlx)) as [? _].
  pose proof (fold_min_below p v0 ly (Hcons _ Hly)) as [_ ?].
  pose proof (fold_max_above p v0 hx (Hcons _ Hhx)) as [? _].
  pose proof (fold_max_above p v0 hy (Hcons _ Hhy)) as [_ ?].
  cbn zeta in *. lra.
Qed.

Lemma spec_box_holds (pts : list (V2 R)) (v : V2 R) :
  v ∈ pts → inside_box v (@V2Set_Box2 R (spec_package eps) pts).
Proof.
  intros Hv. apply spec_box_covers; exists v, v; split_and!; (done || lra).
Qed.

Lemma spec_extend_keeps (v : V2 R) (box box' : V2 R * V2 R) :
  inside_box v box ∨ inside_box v box' →
  inside_box v (@Box2_Extend R (spec_package eps) box box').
Proof.
  cbn [Box2_Extend spec_package]. unfold spec_extend, inside_box. cbn [fst snd V2_X V2_Y].
  pose proof (f_min_le (V2_X box.1) (V2_X box'.1)).
  pose proof (f_min_le (V2_Y box.1) (V2_Y box'.1)).
  pose proof (f_max_ge (V2_X box.2) (V2_X box'.2)).
  pose proof (f_max_ge (V2_Y box.2) (V2_Y box'.2)).
  intros [[? ?] | [? ?]]; lra.
Qed.
End SpecPackageReal.

Lemma BoundingBox_contains_knots_witness :
  ∃ s, @CubicSpline2D R R_ops real_package knots_hat = Ok s ∧
       ∀ k, k ∈ knots_hat → inside_box k (CubicSplineSDF2.BoundingBox s).
Proof.
  destruct (@CubicSpline2D_total real_package knots_hat) as [s Hs]; [simpl; lia |].
  exists s. split; [done |].
  apply (@BoundingBox_contains_knots R R_ops real_package inside_box knots_hat s
           (spec_box_holds _) (spec_extend_keeps _) Hs).
Defined.

Lemma BoundingBox_contains_segment_witness :
  inside_box (CubicSpline.f0 step_segment (1 / 2)%R)
             (@CubicSpline.BoundingBox R R_ops real_package step_segment).
Proof.
  apply (@BoundingBox_contains_segment real_package inside_box step_segment (1 / 2)%R
           (spec_quadratic_finds_roots _) (spec_box_covers _)).
  - unfold step_segment, CubicSpline.f0, CubicPolynomial.f0.
    cbn [px py p0 a b c d]. unfold_R. f_equal; ring.
  - unfold step_segment, CubicSpline.f0, CubicPolynomial.f0.
    cbn [px py p1 a b c d]. unfold_R. f_equal; ring.
  - lra.
Defined.

Section PolygonizeGeneric.
Context {F : Type} `{!Float64Ops F} `{!SdfPackage F} `{!PolygonPackage F}.
Implicit Types (s : CubicSplineSDF2 F) (p : Polygon) (t dt : F).

Lemma polygon_t_iter dt (k : nat) :
  polygon_t dt k = Nat.iter k (λ t, f_add t dt) (f_of_int 0).
Proof. induction k as [|k IH]; [done |]. cbn [polygon_t Nat.iter]. by rewrite IH. Qed.

Lemma Polygonize_loop_inv s dt (count lo : nat) p t p' t' :
  for_up lo count (CubicSplineSDF2.Polygonize_body s dt) (p, t) = Ok (p', t') →
  ∃ vs, p' = foldl Polygon_AddV2 p vs ∧ length vs = count ∧
        ∀ k v, vs !! k = Some v → F0 s (Nat.iter k (λ t, f_add t dt) t) = Ok v.
Proof.
  revert lo p t. induction count as [|count IH]; intros lo p t Hrun.
  - injection Hrun as <- <-. exists []. split_and!; [done | done |].
    intros k v Hk. by rewrite lookup_nil in Hk.
  - cbn [for_up] in Hrun. apply bind_Ok in Hrun as ([p1 t1] & Hbody & Hrun).
    unfold CubicSplineSDF2.Polygonize_body in Hbody.
    apply bind_Ok in Hbody as (v0 & Hv0 & Hbody). injection Hbody as <- <-.
    apply IH in Hrun as (vs & -> & Hlen & Hvs).
    exists (v0 :: vs). split_and!; [done | by rewrite <- Hlen |].
    intros [|k] v Hk.
    + injection Hk as <-. done.
    + rewrite Nat.iter_succ_r. by apply Hvs.
Qed.

(** [Polygonize(n)] adds to a new polygon, in order, the [n] points that
    [F0] returns at the parameters 0, dt, dt + dt, ... with
    dt = len(s.spline) / (n - 1); with [n <= 0] it returns the new
    polygon whatever the set, and with [n >= 1] it panics on a set
    without segments. *)
Theorem Polygonize_vertices s (n : Z) :
  let dt := f_div (f_of_int (Z.of_nat (length (spline s)))) (f_of_int (n - 1)) in
  (∀ p, CubicSplineSDF2.Polygonize s n = Ok p →
     ∃ vs, p = foldl Polygon_AddV2 NewPolygon vs ∧ length vs = Z.to_nat n ∧
           ∀ k v, vs !! k = Some v → F0 s (polygon_t dt k) = Ok v) ∧
  ((n <= 0)%Z → CubicSplineSDF2.Polygonize s n = Ok NewPolygon) ∧
  ((1 <= n)%Z → spline s = [] →
     CubicSplineSDF2.Polygonize s n = Panic index_panic).
Proof.
  intros dt. split_and!.
  - intros p Hrun. unfold CubicSplineSDF2.Polygonize in Hrun. fold dt in Hrun.
    apply bind_Ok in Hrun as ([p' t'] & Hloop & Hret). injection Hret as <-.
    apply Polygonize_loop_inv in Hloop as (vs & -> & Hlen & Hvs).
    exists vs. split_and!; [done | done |].
    intros k v Hk. rewrite polygon_t_iter. by apply Hvs.
  - intros Hn. unfold CubicSplineSDF2.Polygonize.
    replace (Z.to_nat n) with 0%nat by lia. done.
  - intros Hn Hs. unfold CubicSplineSDF2.Polygonize. fold dt.
    destruct (Z.to_nat n) as [|k] eqn:Ek; [lia |].
    cbn [for_up].
    assert (CubicSplineSDF2.Polygonize_body s dt 0 (NewPolygon, f_of_int 0)
            = Panic index_panic) as ->; [| done].
    unfold CubicSplineSDF2.Polygonize_body, F0, Find. rewrite Hs. cbn [length].
    by destruct (_ =? _)%Z; rewrite at_int_nil.
Qed.
End PolygonizeGeneric.

Section FloatNaN.
Context `{!SdfPackage float}.
Local Open Scope float_scope.
Implicit Types (s : CubicSplineSDF2 float) (cs : CubicSpline float) (x t : float).

Lemma ltb_nan_l x : (nan <? x) = false.
Proof.
  rewrite FloatAxioms.ltb_spec. change (Prim2SF nan) with S754_nan.
  by destruct (Prim2SF x).
Qed.

Lemma ltb_nan_r x : (x <? nan) = false.
Proof.
  rewrite FloatAxioms.ltb_spec. change (Prim2SF nan) with S754_nan.
  by destruct (Prim2SF x) as [[|] | [|] | | [|] m e].
Qed.

Lemma add_nan_l x : nan + x = nan.
Proof.
  apply Prim2SF_inj. rewrite FloatAxioms.add_spec. change (Prim2SF nan) with S754_nan.
  by destruct (Prim2SF x).
Qed.

Lemma sub_nan_l x : nan - x = nan.
Proof.
  apply Prim2SF_inj. rewrite FloatAxioms.sub_spec. change (Prim2SF nan) with S754_nan.
  by destruct (Prim2SF x).
Qed.

Lemma Find_nan s : Find s nan = Panic index_panic.
Proof.
  unfold Find, Clamp. cbn [f_ltb f_sub f_to_int float_ops].
  rewrite ltb_nan_l, ltb_nan_r.
  change (float_to_int nan) with min_int64.
  destruct (Z.eqb_spec min_int64 (Z.of_nat (length (spline s)))) as [E | _].
  - unfold min_int64 in E. lia.
  - done.
Qed.

Lemma Evaluate_body_nan s (p : V2 float) cs t :
  CubicSpline.NR_Iterate cs t p = nan →
  Evaluate_body s p (cs, t) = Ok (Continue, (cs, nan)).
Proof.
  intros Hnan. unfold Evaluate_body. cbn zeta. rewrite Hnan.
  unfold Abs. cbn [f_ltb f_sub float_ops].
  by rewrite !sub_nan_l, !ltb_nan_l, !ltb_nan_r.
Qed.

Lemma NR_Iterate_nan cs (p : V2 float) : CubicSpline.NR_Iterate cs nan p = nan.
Proof. unfold CubicSpline.NR_Iterate. cbn [f_sub float_ops]. apply sub_nan_l. Qed.

Lemma Evaluate_loop_nan s (p : V2 float) cs (k : nat) :
  Evaluate_loop s p k (cs, nan) = Ok (cs, nan).
Proof.
  induction k as [|k IH]; [done |]. cbn [Evaluate_loop].
  by rewrite (Evaluate_body_nan s p cs nan (NR_Iterate_nan cs p)).
Qed.

(** NaN is absorbing in [Evaluate], in binary64: when a Newton step gives
    NaN the loop goes on with parameter NaN on the same segment until the
    iteration cap, [Find] panics at NaN for every set, and so the query
    panics when the first step gives NaN. *)
Theorem Evaluate_NaN_panics s (p : V2 float) cs t :
  CubicSpline.NR_Iterate cs t p = nan →
  Evaluate_body s p (cs, t) = Ok (Continue, (cs, nan)) ∧
  (∀ k, Evaluate_loop s p k (cs, nan) = Ok (cs, nan)) ∧
  Find s nan = Panic index_panic ∧
  (Find s (#Evaluate_n / #2)%F64 = Ok (cs, t) → (0 < maxiters s)%Z →
   Evaluate s p = Panic index_panic).
Proof.
  intros Hnan. split_and!.
  - by apply Evaluate_body_nan.
  - intros k. apply Evaluate_loop_nan.
  - apply Find_nan.
  - intros Hstart Hmax. unfold Evaluate. cbn zeta. rewrite Hstart.
    cbn [mbind result_bind].
    destruct (Z.to_nat (maxiters s)) as [|k] eqn:Ek; [lia |].
    cbn [Evaluate_loop]. rewrite (Evaluate_body_nan s p cs t Hnan).
    cbn [mbind result_bind]. rewrite Evaluate_loop_nan. cbn [mbind result_bind].
    cbn [f_add float_ops]. rewrite add_nan_l.
    unfold D0, F0. by rewrite Find_nan.
Qed.
End FloatNaN.

Lemma Evaluate_NaN_panics_witness :
  ∃ cs, Find (built knots_point) (#Evaluate_n / #2)%F64 = Ok (cs, 1%float) ∧
        CubicSpline.NR_Iterate cs 1%float (mkV2 0 0)%float = nan ∧
        Evaluate (built knots_point) (mkV2 0 0)%float = Panic index_panic.
Proof.
  assert (∃ cs, Find (built knots_point) (#Evaluate_n / #2)%F64 = Ok (cs, 1%float) ∧
                CubicSpline.NR_Iterate cs 1%float (mkV2 0 0)%float = nan)
    as (cs & Hstart & Hnan) by (eexists; split; vm_compute; reflexivity).
  exists cs. split; [done |]. split; [done |].
  apply (Evaluate_NaN_panics (built knots_point) (mkV2 0 0)%float cs 1%float Hnan);
    [done | vm_compute; reflexivity].
Defined.

Section MoreFloatRuns.
Local Open Scope float_scope.

Lemma CubicSpline2D_layout_witness :
  maxiters (built knots_line3) = 10%Z ∧
  ∀ i cs, spline (built knots_line3) !! i = Some cs →
    idx cs = Z.of_nat i ∧ knots_line3 !! i = Some (p0 cs) ∧
    knots_line3 !! (i + 1)%nat = Some (p1 cs).
Proof. apply (CubicSpline2D_layout knots_line3 (built knots_line3) built_line3). Defined.

Lemma empty_set_panics_witness :
  Find empty_set 0 = Panic index_panic ∧ F0 empty_set 0 = Panic index_panic ∧
  D0 empty_set 0 (mkV2 0 0) = Panic index_panic ∧
  Evaluate empty_set (mkV2 0 0) = Panic index_panic.
Proof. apply (empty_set_panics empty_set 0 (mkV2 0 0)). reflexivity. Defined.
End MoreFloatRuns.

Section MoreRealRuns.
Local Open Scope R_scope.
#[local] Existing Instance real_package.

Lemma Find_decomposes_witness :
  ∃ (i : nat) cs (u : R),
    Find step_set (1 / 2) = Ok (cs, u) ∧ spline step_set !! i = Some cs ∧ 0 <= u <= 1 ∧
    IZR (Z.of_nat i) + u = Clamp (1 / 2) 0 (IZR (Z.of_nat (length (spline step_set)))).
Proof. apply (Find_decomposes step_set (1 / 2)). done. Defined.

Lemma Find_round_trip_witness :
  Find step_set (IZR (Z.of_nat 0) + 1 / 2) = Ok (step_segment, 1 / 2) ∧
  ∃ last, spline step_set !! (length (spline step_set) - 1)%nat = Some last ∧
          Find step_set (IZR (Z.of_nat (length (spline step_set)))) = Ok (last, 1).
Proof. apply (Find_round_trip step_set 0 step_segment (1 / 2)); [reflexivity | lra]. Defined.

Lemma D1_D2_are_derivatives_witness :
  let p := mkV2 0 1 in
  let T := IZR (Z.of_nat 0) + 1 / 2 in
  D0 step_set T p = Ok (sq_dist step_segment (1 / 2) p) ∧
  derivable_pt_lim (λ T, result_value (D0 step_set T p)) T (result_value (D1 step_set T p)) ∧
  derivable_pt_lim (λ T, result_value (D1 step_set T p)) T (result_value (D2 step_set T p)).
Proof.
  apply (D1_D2_are_derivatives step_set 0 step_segment (1 / 2) (mkV2 0 1));
    [reflexivity | lra].
Defined.

End MoreRealRuns.

(** * Properties in the arithmetic of the program *)

Section FloatArith.
Local Open Scope float_scope.
Implicit Types (x y z : float).









End FloatArith.

Section MulOne.
Local Open Scope float_scope.




End MulOne.

Section ProgramFacts.
Context {F : Type} `{!Float64Ops F} `{!SdfPackage F}.
Local Open Scope F_scope.





End ProgramFacts.

Section PolynomialBinary64.
Local Open Scope float_scope.
Implicit Types (q : CubicPolynomial float).








End PolynomialBinary64.

Section SplineBinary64.
Context `{!SdfPackage float}.
Local Open Scope float_scope.
Implicit Types (knot : list (V2 float)).



End SplineBinary64.

Section NewtonBinary64.
Local Open Scope float_scope.




End NewtonBinary64.

Section TriDiagonalPanics.
Context {F : Type} `{!Float64Ops F}.
Local Open Scope F_scope.
Implicit Types (m : list (V3 F)) (d x : list F).

(** The elimination panics at the first row whose denominator is zero. *)
Lemma eliminate_panics m d (count lo : nat) (st : list F * list F) :
  length d = length m → 1 ≤ lo → lo + count ≤ length m → elim_I m d lo st →
  (∃ i, lo ≤ i < lo + count ∧ (denom m i =? #0) = true) →
  for_up lo count (eliminate m d) st = Panic bad_denom.
Proof.
  intros Hd. revert lo st. induction count as [|count IH]; intros lo st Hlo Hn HI (i & Hi & Hz);
    [lia |].
  cbn [for_up].
  assert (eliminate m d lo st =
            if denom m lo =? #0 then Panic bad_denom
            else Ok (<[lo := cprime m lo]> st.1, <[lo := dprime m d lo]> st.2)) as ->
    by (apply eliminate_step; (done || lia)).
  destruct (denom m lo =? #0) eqn:Hden; [done |]. cbn [mbind result_bind].
  apply IH; [lia | lia | |].
  - apply elim_I_step; [lia | done | done].
  - exists i. split; [| done].
    destruct (decide (i = lo)) as [-> | Hne]; [congruence | lia].
Qed.

(** C7, as the program has it, in every arithmetic: for a matrix of
    [n >= 1] rows and a right-hand side of [n] entries, which check of
    [TriDiagonal] fails and with which panic, on the values the program
    computes; when none fails, it returns the vector of [n] entries that
    the back substitution computes from the eliminated rows,
    [x[n-1] = d'[n-1]] and [x[i] = d'[i] - c'[i] x[i+1]]. *)
Theorem TriDiagonal_panics_or_returns m d :
  length d = length m → 0 < length m →
  let n := length m in
  (((V3_X (row m 0) =? #0) = false ∨ (V3_Z (row m (n - 1)) =? #0) = false) →
   TriDiagonal m d = Panic bad_values) ∧
  ((V3_X (row m 0) =? #0) = true → (V3_Z (row m (n - 1)) =? #0) = true →
   (V3_Y (row m 0) =? #0) = true →
   TriDiagonal m d = Panic bad_pivot) ∧
  ((V3_X (row m 0) =? #0) = true → (V3_Z (row m (n - 1)) =? #0) = true →
   (V3_Y (row m 0) =? #0) = false →
   (∃ i, 1 ≤ i < n ∧ (denom m i =? #0) = true) →
   TriDiagonal m d = Panic bad_denom) ∧
  (accepts m →
   ∃ x, TriDiagonal m d = Ok x ∧ length x = n ∧
        get x (n - 1) = dprime m d (n - 1) ∧
        ∀ i, S i < n → get x i = dprime m d i - cprime m i * get x (S i)).
Proof.
  intros Hd Hn n. split_and!.
  - intros Hbad. rewrite TriDiagonal_prelude by done. fold n.
    destruct (V3_X (row m 0) =? #0) eqn:HX; [| done]. cbn [negb].
    destruct (V3_Z (row m (n - 1)) =? #0) eqn:HZ; [| done].
    by destruct Hbad.
  - intros HX HZ HY. rewrite TriDiagonal_prelude by done. fold n.
    by rewrite HX, HZ, HY.
  - intros HX HZ HY Hz. rewrite TriDiagonal_prelude by done. fold n.
    rewrite HX, HZ, HY. cbn [negb].
    rewrite (eliminate_panics m d (n - 1)%nat 1%nat); [done | done | done | fold n; lia | |].
    + by apply elim_I_init.
    + destruct Hz as (i & Hi & Hz). exists i. split; [lia | done].
  - intros Hacc. destruct (TriDiagonal_complete m d Hd Hn Hacc) as [x Hrun].
    exists x. split; [done |].
    apply TriDiagonal_sound in Hrun as (_ & _ & _ & Hlen & Hx).
    split; [done |]. fold n in Hx. split.
    + rewrite (get_lookup x (n - 1)%nat _ (Hx (n - 1)%nat ltac:(lia))).
      by replace (n - 1 - (n - 1))%nat with 0%nat by lia.
    + intros i Hi.
      rewrite (get_lookup x i _ (Hx i ltac:(lia))).
      rewrite (get_lookup x (S i) _ (Hx (S i) ltac:(lia))).
      by replace (n - 1 - i)%nat with (S (n - 1 - S i)) by lia.
Qed.
End TriDiagonalPanics.

Section Binary64Runs.
Local Open Scope float_scope.








Lemma Set_overflow_coefficients :
  CubicPolynomial.Set_ 0x1p1023 0 0 0 = mkPoly 0 0 neg_infinity infinity.
Proof. vm_compute. reflexivity. Qed.

(** C7 fails as stated: with the pivot 2^-70 no check fails, and the
    vector returned, (0, 1), does not solve the system: row 1 of [M·x] is
    1 where the right-hand side is 2. *)
Lemma TriDiagonal_not_solution :
  ¬ (∀ (m : list (V3 float)) d x, TriDiagonal m d = Ok x →
       ∀ i, (i < length m)%nat → within (#1 / #2)%F64 (mat_vec m x i) (get d i) = true).
Proof.
  intros Hall.
  assert (TriDiagonal tiny_pivot [1; 2] = Ok [0; 1]) as Hrun by (vm_compute; reflexivity).
  specialize (Hall _ _ _ Hrun 1%nat ltac:(simpl; lia)).
  vm_compute in Hall. done.
Qed.

Lemma TriDiagonal_tiny_pivot :
  TriDiagonal tiny_pivot [1; 2] = Ok [0; 1] ∧
  mat_vec tiny_pivot [0; 1] 1 = 1 ∧ get [1; 2] 1 = 2.
Proof. split_and!; vm_compute; reflexivity. Qed.

(** A denominator that is zero in binary64 and not in exact arithmetic:
    0.1 - 1 * (1 / 10). *)
Lemma TriDiagonal_rounded_denominator :
  TriDiagonal [mkV3 0 10 1; mkV3 1 (#1 / #10)%F64 0] [1; 1] = Panic bad_denom.
Proof. vm_compute. reflexivity. Qed.

(** On the curve of five knots, in binary64: the first derivatives at
    the three interior knots agree within 1e-13 in each coordinate, the
    second derivative of the first segment at 0 is exactly zero, and the
    second derivative of the last segment at 1 is within 1e-13 of zero. *)
Example curve_smoothness :
  let s := built knots_curve in
  let first := default zero_spline (spline s !! 0%nat) in
  let last := default zero_spline (spline s !! 3%nat) in
  let tol := (#1 / #10000000000000)%F64 in
  length (derivative_jumps s) = 3%nat ∧
  forallb (λ j, within tol (V2_X j) 0 && within tol (V2_Y j) 0)
    (derivative_jumps s) = true ∧
  CubicSpline.f2 first 0 = mkV2 0 0 ∧
  within tol (V2_X (CubicSpline.f2 last 1)) 0 = true ∧
  within tol (V2_Y (CubicSpline.f2 last 1)) 0 = true.
Proof. cbv zeta. split_and!; vm_compute; reflexivity. Qed.
End Binary64Runs.

Section Binary64Claims.
Local Open Scope float_scope.





Lemma TriDiagonal_panics_or_returns_witness :
  ∃ x, TriDiagonal [mkV3 0 2 1; mkV3 1 2 0] [3; 3] = Ok x ∧ length x = 2%nat ∧
       get x 1 = dprime [mkV3 0 2 1; mkV3 1 2 0] [3; 3] 1 ∧
       TriDiagonal [mkV3 1 2 1; mkV3 1 2 0] [3; 3] = Panic bad_values.
Proof.
  destruct (TriDiagonal_panics_or_returns [mkV3 0 2 1; mkV3 1 2 0] [3; 3]
              eq_refl ltac:(simpl; lia)) as (_ & _ & _ & Hret).
  destruct Hret as (x & Hrun & Hlen & Hlast & _).
  { split_and!; [by vm_compute | by vm_compute | by vm_compute |].
    intros i Hi. replace i with 1%nat by (simpl in Hi; lia). by vm_compute. }
  exists x. split_and!; [done | done | done |].
  apply (TriDiagonal_panics_or_returns [mkV3 1 2 1; mkV3 1 2 0] [3; 3]
           eq_refl ltac:(simpl; lia)).
  left. by vm_compute.
Defined.
End Binary64Claims.
